(** * Overlay pipeline of [scripts/make_fig1_overlay_from_audits.py]

    A shallow embedding of the series loader, the log-log fitter, the
    numeric duplicate detector, the tick selector and the per-series loop
    of the overlay composer, with the properties the specification states
    about them.

    Numbers.  A Python [float] is modelled by a real number: arithmetic is
    exact, [math.log10] is [ln x / ln 10] and [math.sqrt] is [sqrt].  The
    two places where the source handles a non-finite float explicitly (the
    [float("inf")] standard error and the [np.isfinite] guard of the tick
    selector) use the type [float], a real extended with the IEEE special
    values.  A Python [int] is a [Z].

    The real numbers give what the formulas of the program compute; they
    do not give what the program does where a rounding error or a
    non-finite value decides a test.  For the fitter, where the
    zero-variance guard [sxx == 0] is such a test, the module [Binary64]
    gives the same function over IEEE binary64 numbers, and the statements
    that depend on rounding or on infinite values are made there.

    Exceptions.  A Python call that may raise returns [Exc A]; the
    [try/except] of the loader is a match on that result.  The
    [OverflowError] of [10 ** e] on the fit line is raised when the power
    exceeds the largest binary64 number.

    Not modelled: the matplotlib calls' styling arguments beyond those the
    loop passes per series, the SHA-256 fingerprints, axis and legend set-up
    and the file system.  A file is represented by the JSON object read
    from it. *)

From Stdlib Require Import Reals Lra Psatz Lia ZArith String Ascii Bool List.
From Stdlib Require Import Sorted Permutation.
From Stdlib Require Floats.
Import ListNotations.
Open Scope R_scope.

#[local] Set Warnings "-register-all".

(** ** Python values *)

Inductive exn : Type :=
| TypeError
| ValueError
| KeyError
| OverflowError.

Inductive Exc (A : Type) : Type :=
| Ok (a : A)
| Raise (e : exn).

Arguments Ok {A} a.
Arguments Raise {A} e.

Definition bind {A B : Type} (c : Exc A) (k : A -> Exc B) : Exc B :=
  match c with
  | Ok a => k a
  | Raise e => Raise e
  end.

Notation "x <- c ;; k" := (bind c (fun x => k))
  (at level 61, c at next level, right associativity).

(** The value [json.loads] returns.  An object is the list of its bindings;
    [dict_get] returns the binding of a key. *)
Inductive json : Type :=
| JNull
| JBool (b : bool)
| JInt (z : Z)
| JFloat (r : R)
| JStr (s : string)
| JList (l : list json)
| JObj (kv : list (string * json)).

Definition dict : Type := list (string * json).

Fixpoint dict_get (k : string) (d : dict) : option json :=
  match d with
  | [] => None
  | (k', v) :: d' => if String.eqb k k' then Some v else dict_get k d'
  end.

Definition is_none (v : json) : bool :=
  match v with
  | JNull => true
  | _ => false
  end.

(** A float extended with the IEEE special values. *)
Inductive float : Type :=
| Fin (r : R)
| PInf
| NInf
| NaN.

Definition Rgtb (a b : R) : bool := if Rlt_dec b a then true else false.
Definition Rleb (a b : R) : bool := if Rle_dec a b then true else false.
Definition Reqb (a b : R) : bool := if Req_dec_T a b then true else false.

(** [int(r)] on a float: truncation towards zero. *)
Definition trunc (r : R) : Z :=
  if Rle_dec 0 r then Int_part r else (- Int_part (- r))%Z.

Section Loader.

(** [float(s)] and [int(s)] on a string are Python built-ins; their grammar
    is a parameter of the loader. *)
Variable float_of_str : string -> option R.
Variable int_of_str : string -> option Z.

Definition py_float (v : json) : Exc R :=
  match v with
  | JInt z => Ok (IZR z)
  | JFloat r => Ok r
  | JBool b => Ok (if b then 1 else 0)
  | JStr s =>
      match float_of_str s with
      | Some r => Ok r
      | None => Raise ValueError
      end
  | JNull | JList _ | JObj _ => Raise TypeError
  end.

Definition py_int (v : json) : Exc Z :=
  match v with
  | JInt z => Ok z
  | JFloat r => Ok (trunc r)
  | JBool b => Ok (if b then 1 else 0)%Z
  | JStr s =>
      match int_of_str s with
      | Some z => Ok z
      | None => Raise ValueError
      end
  | JNull | JList _ | JObj _ => Raise TypeError
  end.

(** [d[k]] on a dict. *)
Definition getitem (d : dict) (k : string) : Exc json :=
  match dict_get k d with
  | Some v => Ok v
  | None => Raise KeyError
  end.

(** [d.get(k, default)]. *)
Definition get_default (d : dict) (k : string) (default : json) : json :=
  match dict_get k d with
  | Some v => v
  | None => default
  end.

Fixpoint _try_get (obj : dict) (keys : list string) (default : json) : json :=
  match keys with
  | [] => default
  | k :: ks =>
      match dict_get k obj with
      | Some v => if is_none v then _try_get obj ks default else v
      | None => _try_get obj ks default
      end
  end.

(** The three parallel lists the loader fills. *)
Definition cols : Type := (list R * list R * list Z)%type.

(** The body of the [try] of the dict schema. *)
Definition parse_item (d : dict) : Exc (R * R) :=
  dt <- getitem d "dt" ;;
  x <- py_float dt ;;
  tm <- getitem d "tail_median" ;;
  y <- py_float tm ;;
  Ok (x, y).

(** The loop of the dict schema.  An element that is not a dict raises
    [TypeError] at [it["dt"]], inside the [try]. *)
Fixpoint load_items (items : list json) (acc : cols) : Exc cols :=
  match items with
  | [] => Ok acc
  | it :: rest =>
      match it with
      | JObj d =>
          match parse_item d with
          | Raise _ => load_items rest acc
          | Ok (x, y) =>
              if Rgtb x 0 && Rgtb y 0 then
                let '(xs, ys, runs) := acc in
                r <- py_int (get_default d "runs" (JInt 0)) ;;
                load_items rest (xs ++ [x], ys ++ [y], runs ++ [r])
              else load_items rest acc
          end
      | _ => load_items rest acc
      end
  end.

(** The loop of the points schema. *)
Fixpoint load_points (pts : list json) (acc : list R * list R)
  : Exc (list R * list R) :=
  match pts with
  | [] => Ok acc
  | entry :: rest =>
      match entry with
      | JList (p0 :: p1 :: _) =>
          x <- py_float p0 ;;
          y <- py_float p1 ;;
          if Rgtb x 0 && Rgtb y 0 then
            let '(xs, ys) := acc in
            load_points rest (xs ++ [x], ys ++ [y])
          else load_points rest acc
      | _ => load_points rest acc
      end
  end.

(** [sorted(..., key=lambda t: t[0])]: a stable sort on the first
    component. *)
Definition row : Type := (R * R * Z)%type.

Definition key (t : row) : R := fst (fst t).

Fixpoint insert_row (t : row) (l : list row) : list row :=
  match l with
  | [] => [t]
  | h :: tl =>
      if Rlt_dec (key t) (key h) then t :: h :: tl else h :: insert_row t tl
  end.

Definition sorted (l : list row) : list row :=
  fold_left (fun acc t => insert_row t acc) l [].

Definition zip3 (xs ys : list R) (runs : list Z) : list row :=
  combine (combine xs ys) runs.

(** The condition of the first branch: [items] is a non-empty list whose
    first element is a dict with a key ["dt"]. *)
Definition is_dict_schema (items : json) : bool :=
  match items with
  | JList (JObj d0 :: _) =>
      match dict_get "dt" d0 with
      | Some _ => true
      | None => false
      end
  | _ => false
  end.

Definition list_of (items : json) : list json :=
  match items with
  | JList l => l
  | _ => []
  end.

Definition loaded : Type := (list R * list R * list Z * option Z)%type.

Definition load_series (obj : dict) : Exc loaded :=
  let items := _try_get obj ["report"; "series"]%string (JList []) in
  r <-
    (if is_dict_schema items then
       c <- load_items (list_of items) ([], [], []) ;;
       let '(xs, ys, runs) := c in
       Ok (xs, ys, runs,
           match xs with
           | [] => None
           | _ => Some (Z.of_nat (length xs))
           end)
     else
       match dict_get "points" obj with
       | Some (JList pts) =>
           c <- load_points pts ([], []) ;;
           let '(xs, ys) := c in
           let runs := repeat 0%Z (length xs) in
           n_pts <-
             match xs with
             | [] => Ok None
             | _ =>
                 n <- py_int (get_default obj "n"
                                (JInt (Z.of_nat (length xs)))) ;;
                 Ok (Some n)
             end ;;
           Ok (xs, ys, runs, n_pts)
       | _ => Ok ([], [], [], None)
       end) ;;
  let '(xs, ys, runs, n_pts) := r in
  let z := sorted (zip3 xs ys runs) in
  Ok (map (fun t => fst (fst t)) z,
      map (fun t => snd (fst t)) z,
      map (fun t => snd t) z,
      n_pts).

End Loader.

(** ** The fitter *)

Definition log10 (x : R) : R := ln x / ln 10.

(** The built-in [sum]: a left fold from 0. *)
Definition sum (l : list R) : R := fold_left Rplus l 0.

(** [t * e], [a - e] and [a + e] with a finite left operand. *)
Definition fmul (t : R) (e : float) : float :=
  match e with
  | Fin s => Fin (t * s)
  | PInf => if Rlt_dec 0 t then PInf else if Rlt_dec t 0 then NInf else NaN
  | NInf => if Rlt_dec 0 t then NInf else if Rlt_dec t 0 then PInf else NaN
  | NaN => NaN
  end.

Definition fsub (a : R) (e : float) : float :=
  match e with
  | Fin s => Fin (a - s)
  | PInf => NInf
  | NInf => PInf
  | NaN => NaN
  end.

Definition fadd (a : R) (e : float) : float :=
  match e with
  | Fin s => Fin (a + s)
  | PInf => PInf
  | NInf => NInf
  | NaN => NaN
  end.

(** [a <= e] and [e <= a] as IEEE comparisons. *)
Definition fle_l (a : R) (e : float) : Prop :=
  match e with
  | Fin s => a <= s
  | PInf => True
  | NInf | NaN => False
  end.

Definition fle_r (e : float) (a : R) : Prop :=
  match e with
  | Fin s => s <= a
  | NInf => True
  | PInf | NaN => False
  end.

Record FitResult : Type := {
  fit_m : R;
  fit_b : R;
  fit_lo : float;
  fit_hi : float;
  fit_r2 : R;
  fit_n : nat
}.

(** The table of critical values. *)
Definition tcrit (df : Z) : R :=
  if (df <=? 0)%Z then 1.96
  else if (df =? 1)%Z then 12.706
  else if (df =? 2)%Z then 4.303
  else if (df <=? 20)%Z then 2.086
  else 1.96.

Definition positive_points (xs ys : list R) : list (R * R) :=
  filter (fun p => Rgtb (fst p) 0 && Rgtb (snd p) 0) (combine xs ys).

Definition ols_log10 (xs ys : list R) : option FitResult :=
  let pts := positive_points xs ys in
  if (length pts <? 3)%nat then None
  else
    let lx := map (fun p => log10 (fst p)) pts in
    let ly := map (fun p => log10 (snd p)) pts in
    let n := length lx in
    let xm := sum lx / INR n in
    let ym := sum ly / INR n in
    let sxx := sum (map (fun x => (x - xm) ^ 2) lx) in
    if Reqb sxx 0 then None
    else
      let sxy :=
        sum (map (fun p => (fst p - xm) * (snd p - ym)) (combine lx ly)) in
      let m := sxy / sxx in
      let b := ym - m * xm in
      let rss :=
        sum (map (fun p => (snd p - (m * fst p + b)) ^ 2) (combine lx ly)) in
      let tss := sum (map (fun y => (y - ym) ^ 2) ly) in
      let r2 := if Reqb tss 0 then 0 else 1 - rss / tss in
      let df := (Z.of_nat n - 2)%Z in
      let s2 := rss / IZR (Z.max 1 df) in
      let se := if Rgtb sxx 0 then Fin (sqrt (s2 / sxx)) else PInf in
      let t := tcrit df in
      Some {| fit_m := m; fit_b := b;
              fit_lo := fsub m (fmul t se); fit_hi := fadd m (fmul t se);
              fit_r2 := r2; fit_n := n |}.

(** ** The fitter in binary64

    [ols_log10] once more, over IEEE binary64 numbers with the rounding of
    every operation (the primitive floats of the kernel).  IEEE 754 does
    not fix the results of the C library functions behind [math.log10] and
    [x ** 2]; they are parameters of the fitter.  The built-in [sum] is a
    left fold of additions from 0 (CPython 3.12 adds a compensation term,
    which is zero on the sums taken below).  [x ** 2] and [math.sqrt] raise
    on an overflow and on a negative number; neither occurs for differences
    of logarithms and quotients of sums of squares, and the model has the
    IEEE operations. *)
Module Binary64.

Import Floats.
#[local] Open Scope float_scope.
#[local] Set Warnings "-inexact-float".

Record FitResult : Type := {
  fit_m : float;
  fit_b : float;
  fit_lo : float;
  fit_hi : float;
  fit_r2 : float;
  fit_n : nat
}.

Section Libm.

Variable log10 : float -> float.
Variable pow : float -> float -> float.

(** The conversion of a small non-negative [int] in a mixed operation. *)
Definition of_int (z : Z) : float := of_uint63 (Uint63.of_Z z).

Definition sum (l : list float) : float := fold_left add l 0.

Definition tcrit (df : Z) : float :=
  if (df <=? 0)%Z then 1.96
  else if (df =? 1)%Z then 12.706
  else if (df =? 2)%Z then 4.303
  else if (df <=? 20)%Z then 2.086
  else 1.96.

Definition positive_points (xs ys : list float) : list (float * float) :=
  filter (fun p => (0 <? fst p) && (0 <? snd p))%bool (combine xs ys).

Definition ols_log10 (xs ys : list float) : option FitResult :=
  let pts := positive_points xs ys in
  if (length pts <? 3)%nat then None
  else
    let lx := map (fun p => log10 (fst p)) pts in
    let ly := map (fun p => log10 (snd p)) pts in
    let n := length lx in
    let xm := sum lx / of_int (Z.of_nat n) in
    let ym := sum ly / of_int (Z.of_nat n) in
    let sxx := sum (map (fun x => pow (x - xm) 2) lx) in
    if sxx =? 0 then None
    else
      let sxy :=
        sum (map (fun p => (fst p - xm) * (snd p - ym)) (combine lx ly)) in
      let m := sxy / sxx in
      let b := ym - m * xm in
      let rss :=
        sum (map (fun p => pow (snd p - (m * fst p + b)) 2) (combine lx ly)) in
      let tss := sum (map (fun y => pow (y - ym) 2) ly) in
      let r2 := if tss =? 0 then 0 else 1 - rss / tss in
      let df := (Z.of_nat n - 2)%Z in
      let s2 := rss / of_int (Z.max 1 df) in
      let se := if 0 <? sxx then sqrt (s2 / sxx) else infinity in
      let t := tcrit df in
      Some {| fit_m := m; fit_b := b;
              fit_lo := m - t * se; fit_hi := m + t * se;
              fit_r2 := r2; fit_n := n |}.

End Libm.

(** [math.log10] at the arguments the examples use: it is exact at 1, 10
    and 100 and returns [inf] at [inf]; at 6 and at 60 it returns the
    binary64 number nearest to the logarithm, 0.7781512503836436 and
    1.7781512503836436.  The table has no other entry. *)
Definition log10_at (x : float) : float :=
  if x =? 1 then 0
  else if x =? 10 then 1
  else if x =? 100 then 2
  else if x =? 6 then 0x1.8e69d7377a7fep-1
  else if x =? 60 then 0x1.c734eb9bbd3ffp+0
  else if x =? infinity then infinity
  else nan.

(** [x ** 2] at the arguments the examples use: the squares taken there
    (of 0, 1, -1 and 2^-53) are binary64 numbers, and the square of an
    infinity is [inf] and that of a NaN is NaN, so they are the IEEE
    product. *)
Definition pow_at (x y : float) : float := if y =? 2 then x * x else nan.

End Binary64.

(** ** The numeric duplicate check *)

Definition tol_default : R := 1 / 10 ^ 12.

Fixpoint all_close (tol : R) (ab : list (R * R)) : bool :=
  match ab with
  | [] => true
  | (x, y) :: rest => Rleb (Rabs (x - y)) tol && all_close tol rest
  end.

Definition nearly_identical (a b : list R) (tol : R) : bool :=
  if negb (length a =? length b)%nat then false
  else all_close tol (combine a b).

(** ** The tick selector *)

(** [np.round(np.arange(1.0, 10.0, 0.2), 1)]: the 45 mantissas
    1.0, 1.2, ..., 9.8. *)
Definition cand : list R := map (fun i => 1 + 0.2 * INR i) (seq 0 45).

(** [np.geomspace(start, stop, num)] for positive end points. *)
Definition geomspace (start stop : R) (num : nat) : list R :=
  map (fun i => start * Rpower (stop / start) (INR i / INR (num - 1)))
      (seq 0 num).

(** [np.linspace(0, last, num, dtype=int)]: the point [i * last / (num - 1)]
    truncated to an integer; a single point is [0]. *)
Definition linspace_int (last num : nat) : list nat :=
  map (fun i => (i * last / (num - 1))%nat) (seq 0 num).

Definition is_finite (y : float) : bool :=
  match y with
  | Fin _ => true
  | _ => false
  end.

Definition _nice_sparse_log_ticks (ymin ymax : float) (max_labels : nat)
  : list R :=
  match ymin, ymax with
  | Fin lo, Fin hi =>
      if Rleb lo 0 || Rleb hi 0 then []
      else
        let k := Int_part (log10 lo) in
        let base := powerRZ 10 k in
        let mmin := lo / base in
        let mmax := hi / base in
        let picks :=
          filter (fun c => Rleb (mmin - tol_default) c
                           && Rleb c (mmax + tol_default)) cand in
        let picks :=
          match picks with
          | [] => geomspace (Rmax 1 mmin) (Rmin 9.99 mmax) max_labels
          | _ => picks
          end in
        let idx :=
          linspace_int (length picks - 1) (min max_labels (length picks)) in
        map (fun i => nth i picks 0 * base) idx
  | _, _ => []
  end.

(** ** The composer *)

Definition lower_ascii (c : ascii) : ascii :=
  let n := nat_of_ascii c in
  if ((65 <=? n) && (n <=? 90))%nat then ascii_of_nat (n + 32) else c.

Fixpoint lower (s : string) : string :=
  match s with
  | EmptyString => EmptyString
  | String c s' => String (lower_ascii c) (lower s')
  end.

Definition endswith (s suffix : string) : bool :=
  let n := String.length s in
  let k := String.length suffix in
  ((k <=? n)%nat && String.eqb (substring (n - k) k s) suffix)%bool.

Definition contains (needle s : string) : bool :=
  match index 0 needle s with
  | Some _ => true
  | None => false
  end.

(** One entry of [specs]. *)
Record spec : Type := {
  label : string;
  source : dict;
  color : string;
  marker : string;
  lstyle : string
}.

Definition series : Type := (list R * list R)%type.

(** [series_data[k] = v] on a dict kept in insertion order. *)
Fixpoint dict_set (k : string) (v : series) (d : list (string * series))
  : list (string * series) :=
  match d with
  | [] => [(k, v)]
  | (k', v') :: d' =>
      if String.eqb k k' then (k', v) :: d' else (k', v') :: dict_set k v d'
  end.

(** The calls made on the axes. *)
Inductive artist : Type :=
| Line (c ls : string) (xs ys : list R)
| Markers (c mk : string) (xs ys : list R)
| FitLine (c : string) (xx yy : list R).

(** What the loop builds.  [fitted] records the arguments of each call of
    the fitter, in order. *)
Record overlay : Type := {
  series_data : list (string * series);
  drawn : list artist;
  fitted : list (string * series);
  labels : list string;
  caption : list string
}.

Definition overlay0 : overlay :=
  {| series_data := []; drawn := []; fitted := []; labels := [];
     caption := [] |}.

Definition list_min (x : R) (l : list R) : R := fold_left Rmin l x.
Definition list_max (x : R) (l : list R) : R := fold_left Rmax l x.

(** The largest binary64 number, [(2^53 - 1) * 2^971]. *)
Definition float_max : R := IZR (2 ^ 1024 - 2 ^ 971).

(** [10 ** e] with a float exponent: the power, or [OverflowError] when it
    leaves the binary64 range. *)
Definition pow10 (e : R) : Exc R :=
  if Rgtb (Rpower 10 e) float_max then Raise OverflowError
  else Ok (Rpower 10 e).

Definition is_dup (sa sb : series) : bool :=
  match fst sa, fst sb with
  | _ :: _, _ :: _ =>
      nearly_identical (fst sa) (fst sb) tol_default
      && nearly_identical (snd sa) (snd sb) tol_default
  | _, _ => false
  end.

Definition warn_msg (a b : string) : string :=
  ("[WARN] Series '" ++ a ++ "' and '" ++ b
   ++ "' appear numerically identical.")%string.

(** The double loop over [i < j]. *)
Fixpoint dup_warnings (sd : list (string * series)) : list string :=
  match sd with
  | [] => []
  | (a, sa) :: rest =>
      map (fun e => warn_msg a (fst e))
          (filter (fun e => is_dup sa (snd e)) rest)
      ++ dup_warnings rest
  end.

Section Composer.

Variable float_of_str : string -> option R.
Variable int_of_str : string -> option Z.

(** The format specifications [+.3f] and [.2f]. *)
Variable fmt_signed3 : float -> string.
Variable fmt_2 : R -> string.

Definition na_line (lbl : string) : string := (lbl ++ ": fit n/a")%string.

Definition fit_line (lbl : string) (f : FitResult) : string :=
  (lbl ++ ": m=" ++ fmt_signed3 (Fin (fit_m f))
   ++ " [" ++ fmt_signed3 (fit_lo f) ++ "," ++ fmt_signed3 (fit_hi f)
   ++ "] R^2=" ++ fmt_2 (fit_r2 f))%string.

(** The xs the loop works with after [load_series]. *)
Definition jittered (lbl : string) (thrash_jitter_pct : R) (xs : list R)
  : list R :=
  if endswith (lower lbl) "thrash" && negb (Reqb thrash_jitter_pct 0)
  then map (fun x => x * (1 + thrash_jitter_pct / 100)) xs
  else xs.

(** [[10 ** (m * math.log10(x) + fit["b"]) for x in xx]] for
    [xx = [x0, x1]]. *)
Definition fit_curve (f : FitResult) (x0 x1 : R) : Exc (list R) :=
  y0 <- pow10 (fit_m f * log10 x0 + fit_b f) ;;
  y1 <- pow10 (fit_m f * log10 x1 + fit_b f) ;;
  Ok [y0; y1].

(** The series a spec contributes when its file loads. *)
Definition loaded_series (sp : spec) : series :=
  match load_series float_of_str int_of_str (source sp) with
  | Ok (xs, ys, _, _) => (xs, ys)
  | Raise _ => ([], [])
  end.

(** One iteration of the loop over [specs]. *)
Definition overlay_step (show_fit : bool) (thrash_jitter_pct : R)
    (st : overlay) (sp : spec) : Exc overlay :=
  r <- load_series float_of_str int_of_str (source sp) ;;
  let '(xs0, ys, _, _) := r in
  let xs := jittered (label sp) thrash_jitter_pct xs0 in
  let sd := dict_set (label sp) (xs, ys) (series_data st) in
  match xs with
  | [] =>
      Ok {| series_data := sd; drawn := drawn st; fitted := fitted st;
            labels := labels st; caption := caption st |}
  | x :: xs' =>
      let d1 :=
        drawn st ++ [Line (color sp) (lstyle sp) xs ys;
                     Markers (color sp) (marker sp) xs ys] in
      let fit := ols_log10 xs ys in
      let ft := fitted st ++ [(label sp, (xs, ys))] in
      match fit with
      | Some f =>
          let leg_text :=
            if Rgtb 0.30 (fit_r2 f) && contains "scramble" (lower (label sp))
            then (label sp ++ " (low $R^2$)")%string
            else label sp in
          d2 <- (if show_fit then
                   let x0 := list_min x xs' in
                   let x1 := list_max x xs' in
                   yy <- fit_curve f x0 x1 ;;
                   Ok (d1 ++ [FitLine (color sp) [x0; x1] yy])
                 else Ok d1) ;;
          Ok {| series_data := sd; drawn := d2; fitted := ft;
                labels := labels st ++ [leg_text];
                caption := caption st ++ [fit_line (label sp) f] |}
      | None =>
          Ok {| series_data := sd; drawn := d1; fitted := ft;
                labels := labels st ++ [label sp];
                caption := caption st ++ [na_line (label sp)] |}
      end
  end.

(** The fit line of a series, where one is drawn, stays in the binary64
    range. *)
Definition fit_line_in_range (show_fit : bool) (thrash_jitter_pct : R)
    (sp : spec) : Prop :=
  show_fit = true ->
  forall x xs' f,
    jittered (label sp) thrash_jitter_pct (fst (loaded_series sp)) = x :: xs'
    -> ols_log10 (x :: xs') (snd (loaded_series sp)) = Some f ->
    exists yy, fit_curve f (list_min x xs') (list_max x xs') = Ok yy.

Fixpoint overlay_loop (show_fit : bool) (thrash_jitter_pct : R)
    (specs : list spec) (st : overlay) : Exc overlay :=
  match specs with
  | [] => Ok st
  | sp :: rest =>
      st' <- overlay_step show_fit thrash_jitter_pct st sp ;;
      overlay_loop show_fit thrash_jitter_pct rest st'
  end.

Definition build_specs (p_default : dict) (p_thrash p_scramble : option dict)
  : list spec :=
  [{| label := "LF-default"; source := p_default; color := "#2563eb";
      marker := "o"; lstyle := "-" |}]
  ++ match p_thrash with
     | Some p => [{| label := "LF-thrash"; source := p; color := "#16a34a";
                     marker := "s"; lstyle := "-" |}]
     | None => []
     end
  ++ match p_scramble with
     | Some p => [{| label := "LF-scramble"; source := p;
                     color := "#a855f7"; marker := ">"; lstyle := "--" |}]
     | None => []
     end.

(** The loop and the numeric duplicate warnings printed after it. *)
Definition make_overlay (p_default : dict) (p_thrash p_scramble : option dict)
    (show_fit : bool) (thrash_jitter_pct : R)
  : Exc (overlay * list string) :=
  st <- overlay_loop show_fit thrash_jitter_pct
          (build_specs p_default p_thrash p_scramble) overlay0 ;;
  Ok (st, dup_warnings (series_data st)).

End Composer.

(** ** Quantities the specification names

    The log-transformed points the fitter works on and the sums of squares
    of the regression, as functions of the whole lists. *)

Definition log_xs (xs ys : list R) : list R :=
  map (fun p => log10 (fst p)) (positive_points xs ys).

Definition log_ys (xs ys : list R) : list R :=
  map (fun p => log10 (snd p)) (positive_points xs ys).

Definition mean (l : list R) : R := sum l / INR (length l).

(** The unnormalized sum of squared deviations. *)
Definition Sxx (lx : list R) : R :=
  sum (map (fun x => (x - mean lx) ^ 2) lx).

Definition Sxy (lx ly : list R) : R :=
  sum (map (fun p => (fst p - mean lx) * (snd p - mean ly)) (combine lx ly)).

(** The residual sum of squares of the line [m * x + b]. *)
Definition RSS (m b : R) (lx ly : list R) : R :=
  sum (map (fun p => (snd p - (m * fst p + b)) ^ 2) (combine lx ly)).

Definition TSS (ly : list R) : R :=
  sum (map (fun y => (y - mean ly) ^ 2) ly).

(** The points [(x, C * x^a)] of a power law. *)
Definition power_law (C a : R) (xs : list R) : list R :=
  map (fun x => C * Rpower x a) xs.

(** All retained points have the same x. *)
Definition same_x (pts : list (R * R)) : Prop :=
  forall p q, In p pts -> In q pts -> fst p = fst q.

(** Two lists agree element by element within [tol]. *)
Definition elementwise_within (tol : R) (a b : list R) : Prop :=
  length a = length b /\
  forall i, (i < length a)%nat -> Rabs (nth i a 0 - nth i b 0) <= tol.

(** Instances of the parameters used to run the code on records whose
    fields are JSON numbers: a grammar that accepts no string, and a
    formatter that prints nothing. *)
Definition no_float_str : string -> option R := fun _ => None.
Definition no_int_str : string -> option Z := fun _ => None.
Definition no_fmt3 : float -> string := fun _ => EmptyString.
Definition no_fmt2 : R -> string := fun _ => EmptyString.

(** The record [{"points": [[1, 1], [10, 10], [100, 100]]}]. *)
Definition pow10_points : dict :=
  [("points"%string,
    JList [JList [JInt 1; JInt 1]; JList [JInt 10; JInt 10];
           JList [JInt 100; JInt 100]])].

(** The record [{"points": [[1, y], [10, y], [100, 1]]}]. *)
Definition steep_points (y : R) : dict :=
  [("points"%string,
    JList [JList [JInt 1; JFloat y]; JList [JInt 10; JFloat y];
           JList [JInt 100; JInt 1]])].

(** The calls of the fitter the loop makes for a list of specs, given what
    each file loads to. *)
Definition fitter_calls (load : spec -> series) (pct : R) (specs : list spec)
  : list (string * series) :=
  flat_map (fun sp =>
              match jittered (label sp) pct (fst (load sp)) with
              | [] => []
              | x :: xs => [(label sp, (x :: xs, snd (load sp)))]
              end) specs.

(** The rows behind three parallel lists, and the lists behind rows. *)
Definition rows_of (c : cols) : list row :=
  zip3 (fst (fst c)) (snd (fst c)) (snd c).

Definition ascending (l : list R) : Prop := StronglySorted Rle l.

(** A row the dict schema keeps stems from an element of [items]: its
    ["dt"] and ["tail_median"] convert to the row's x and y and its
    ["runs"] (0 when missing) to the row's run count. *)
Definition item_row (fs : string -> option R) (is_ : string -> option Z)
    (items : list json) (t : row) : Prop :=
  exists d, In (JObj d) items /\
            parse_item fs d = Ok (fst (fst t), snd (fst t)) /\
            py_int is_ (get_default d "runs" (JInt 0)) = Ok (snd t).

(** A row the points schema keeps stems from an entry of ["points"] with
    at least two elements, the first two converting to x and y. *)
Definition point_row (fs : string -> option R) (pts : list json) (t : row)
  : Prop :=
  exists p0 p1 rest, In (JList (p0 :: p1 :: rest)) pts /\
                     py_float fs p0 = Ok (fst (fst t)) /\
                     py_float fs p1 = Ok (snd (fst t)) /\
                     snd t = 0%Z.

Definition positive_row (t : row) : Prop := 0 < fst (fst t) /\ 0 < snd (fst t).

Definition is_fit_line (a : artist) : bool :=
  match a with
  | FitLine _ _ _ => true
  | _ => false
  end.

(** ** Tick labels *)

(** [s.rstrip(c)] for a single character. *)
Fixpoint rstrip (c : ascii) (s : string) : string :=
  match s with
  | EmptyString => EmptyString
  | String a s' =>
      match rstrip c s' with
      | EmptyString =>
          if Ascii.eqb a c then EmptyString else String a EmptyString
      | r => String a r
      end
  end.

(** [fmt_4f] is the format specification [.4f]. *)
Definition fmt_small_dt (fmt_4f : R -> string) (x : R) : string :=
  rstrip "." (rstrip "0" (fmt_4f x)).

(** [n] copies of a character, and the last character of a string. *)
Fixpoint replicate (n : nat) (c : ascii) : string :=
  match n with
  | O => EmptyString
  | S n' => String c (replicate n' c)
  end.

Fixpoint last_char (s : string) : option ascii :=
  match s with
  | EmptyString => None
  | String a EmptyString => Some a
  | String _ s' => last_char s'
  end.

(** Lines 220-223 of [make_overlay]: the labels of the inputs grouped by
    digest.  [buckets] is a dict from digest to the list of labels, in the
    order the digests first occur; [buckets.setdefault(d, []).append(lbl)]
    appends to the list of [d], creating it at the end when [d] is new. *)
Fixpoint setdefault_append (d lbl : string)
    (buckets : list (string * list string)) : list (string * list string) :=
  match buckets with
  | [] => [(d, [lbl])]
  | (d', lab) :: rest =>
      if String.eqb d' d then (d', lab ++ [lbl]) :: rest
      else (d', lab) :: setdefault_append d lbl rest
  end.

Definition buckets_of (digests : list (string * string))
    : list (string * list string) :=
  fold_left (fun b e => setdefault_append (snd e) (fst e) b) digests [].

(** [dups = [lab for lab in buckets.values() if len(lab) > 1]]; the warning
    of line 225 is printed when [dups] is not empty. *)
Definition dups (digests : list (string * string)) : list (list string) :=
  filter (fun lab => (1 <? length lab)%nat) (map snd (buckets_of digests)).

(** The labels of the inputs whose digest is [d], in input order. *)
Definition labels_with (d : string) (digests : list (string * string))
    : list string :=
  map fst (filter (fun e => String.eqb (snd e) d) digests).

(** What holds of the buckets after the digests [pre] are entered. *)
Definition buckets_inv (pre : list (string * string))
    (b : list (string * list string)) : Prop :=
  NoDup (map fst b) /\
  forall d lab, In (d, lab) b <-> (lab = labels_with d pre /\ lab <> []).

(** * Properties *)

(** ** Comparisons *)

Lemma Rgtb_true (a b : R) : Rgtb a b = true <-> b < a.
Proof.
  unfold Rgtb; destruct (Rlt_dec b a); split; intros; congruence || lra.
Qed.

Lemma Rgtb_false (a b : R) : Rgtb a b = false <-> a <= b.
Proof.
  unfold Rgtb; destruct (Rlt_dec b a); split; intros; congruence || lra.
Qed.

Lemma Rleb_true (a b : R) : Rleb a b = true <-> a <= b.
Proof.
  unfold Rleb; destruct (Rle_dec a b); split; intros; congruence || lra.
Qed.

Lemma Rleb_false (a b : R) : Rleb a b = false <-> b < a.
Proof.
  unfold Rleb; destruct (Rle_dec a b); split; intros; congruence || lra.
Qed.

Lemma Reqb_true (a b : R) : Reqb a b = true <-> a = b.
Proof. unfold Reqb; destruct (Req_dec_T a b); split; intros; congruence. Qed.

Lemma Reqb_false (a b : R) : Reqb a b = false <-> a <> b.
Proof. unfold Reqb; destruct (Req_dec_T a b); split; intros; congruence. Qed.

(** ** Sums *)

Lemma fold_plus_shift (l : list R) (a : R) :
  fold_left Rplus l a = a + fold_left Rplus l 0.
Proof.
  revert a; induction l as [|x l IH]; intros a; simpl.
  - lra.
  - rewrite (IH (a + x)), (IH (0 + x)). lra.
Qed.

Lemma sum_nil : sum [] = 0.
Proof. reflexivity. Qed.

Lemma sum_cons (a : R) (l : list R) : sum (a :: l) = a + sum l.
Proof. unfold sum; simpl. rewrite fold_plus_shift. lra. Qed.

Lemma sum_map_ext {A : Type} (f g : A -> R) (l : list A) :
  (forall x, In x l -> f x = g x) -> sum (map f l) = sum (map g l).
Proof.
  induction l as [|x l IH]; intros H; simpl; [reflexivity|].
  rewrite !sum_cons, IH, (H x); auto with datatypes.
Qed.

Lemma sum_map_scale {A : Type} (c : R) (f : A -> R) (l : list A) :
  sum (map (fun x => c * f x) l) = c * sum (map f l).
Proof.
  induction l as [|x l IH]; simpl.
  - rewrite sum_nil; lra.
  - rewrite !sum_cons, IH; lra.
Qed.

Lemma sum_map_zero {A : Type} (l : list A) : sum (map (fun _ => 0) l) = 0.
Proof.
  induction l as [|x l IH]; simpl; [reflexivity|].
  rewrite sum_cons, IH; lra.
Qed.

Lemma sum_map_affine (c a : R) (l : list R) :
  sum (map (fun x => c + a * x) l) = INR (length l) * c + a * sum l.
Proof.
  induction l as [|x l IH].
  - simpl; rewrite sum_nil; lra.
  - cbn [map length]. rewrite !sum_cons, IH, S_INR. lra.
Qed.

Lemma sum_sq_nonneg {A : Type} (f : A -> R) (l : list A) :
  0 <= sum (map (fun x => f x ^ 2) l).
Proof.
  induction l as [|x l IH]; cbn [map].
  - rewrite sum_nil; lra.
  - rewrite sum_cons. pose proof (pow2_ge_0 (f x)). lra.
Qed.

Lemma sum_sq_zero {A : Type} (f : A -> R) (l : list A) :
  sum (map (fun x => f x ^ 2) l) = 0 -> forall x, In x l -> f x = 0.
Proof.
  induction l as [|y l IH]; cbn [map In]; intros H x Hin; [contradiction|].
  rewrite sum_cons in H.
  pose proof (pow2_ge_0 (f y)) as Hy.
  pose proof (sum_sq_nonneg f l) as Hl.
  destruct Hin as [->|Hin].
  - assert (E : f x ^ 2 = 0) by lra.
    simpl in E. apply Rsqr_0_uniq. unfold Rsqr. lra.
  - apply IH; [lra|assumption].
Qed.

Lemma sum_const (v : R) (l : list R) :
  (forall x, In x l -> x = v) -> sum l = INR (length l) * v.
Proof.
  induction l as [|y l IH]; intros H.
  - simpl; rewrite sum_nil; lra.
  - cbn [length]. rewrite sum_cons, S_INR, IH, (H y);
      auto with datatypes. lra.
Qed.

(** ** The critical values *)

Lemma tcrit_pos (df : Z) : 0 < tcrit df.
Proof.
  unfold tcrit.
  destruct (df <=? 0)%Z; [lra|].
  destruct (df =? 1)%Z; [lra|].
  destruct (df =? 2)%Z; [lra|].
  destruct (df <=? 20)%Z; lra.
Qed.

(** ** The fitter *)

Lemma ln_10_pos : 0 < ln 10.
Proof. rewrite <- ln_1. apply ln_increasing; lra. Qed.

Lemma log10_inj (x y : R) : 0 < x -> 0 < y -> log10 x = log10 y -> x = y.
Proof.
  intros Hx Hy H. apply ln_inv; trivial.
  unfold log10 in H. pose proof ln_10_pos.
  apply (Rmult_eq_reg_r (/ ln 10)); [exact H|].
  apply Rinv_neq_0_compat; lra.
Qed.

Lemma log10_mult (x y : R) :
  0 < x -> 0 < y -> log10 (x * y) = log10 x + log10 y.
Proof.
  intros Hx Hy. unfold log10. rewrite ln_mult by assumption.
  pose proof ln_10_pos. field; lra.
Qed.

Lemma log10_Rpower (x a : R) : log10 (Rpower x a) = a * log10 x.
Proof.
  unfold log10, Rpower. rewrite ln_exp.
  pose proof ln_10_pos. field; lra.
Qed.

Lemma positive_points_pos (xs ys : list R) (p : R * R) :
  In p (positive_points xs ys) -> 0 < fst p /\ 0 < snd p.
Proof.
  unfold positive_points. rewrite filter_In, andb_true_iff, !Rgtb_true.
  tauto.
Qed.

(** The fitter, with its intermediate values named. *)
Lemma ols_log10_unfold (xs ys : list R) :
  ols_log10 xs ys =
  let lx := log_xs xs ys in
  let ly := log_ys xs ys in
  if (length (positive_points xs ys) <? 3)%nat then None
  else if Reqb (Sxx lx) 0 then None
  else
    let m := Sxy lx ly / Sxx lx in
    let b := mean ly - m * mean lx in
    let df := (Z.of_nat (length lx) - 2)%Z in
    let se :=
      if Rgtb (Sxx lx) 0
      then Fin (sqrt (RSS m b lx ly / IZR (Z.max 1 df) / Sxx lx))
      else PInf in
    Some {| fit_m := m; fit_b := b;
            fit_lo := fsub m (fmul (tcrit df) se);
            fit_hi := fadd m (fmul (tcrit df) se);
            fit_r2 := if Reqb (TSS ly) 0 then 0
                      else 1 - RSS m b lx ly / TSS ly;
            fit_n := length lx |}.
Proof.
  unfold ols_log10, Sxx, Sxy, RSS, TSS, mean, log_xs, log_ys.
  cbv zeta. rewrite !length_map. reflexivity.
Qed.

Lemma Sxx_nonneg (lx : list R) : 0 <= Sxx lx.
Proof. unfold Sxx. apply (sum_sq_nonneg (fun x => x - mean lx)). Qed.

Lemma Sxx_zero_iff (lx : list R) :
  lx <> [] -> (Sxx lx = 0 <-> forall x y, In x lx -> In y lx -> x = y).
Proof.
  intros Hne. split.
  - intros H x y Hx Hy.
    pose proof (sum_sq_zero (fun x => x - mean lx) lx H) as Hz.
    pose proof (Hz x Hx). pose proof (Hz y Hy). simpl in *. lra.
  - intros H. destruct lx as [|v l]; [congruence|].
    assert (Hv : forall x, In x (v :: l) -> x = v).
    { intros x Hx. apply H; auto with datatypes. }
    assert (Hm : mean (v :: l) = v).
    { unfold mean. rewrite (sum_const v) by assumption.
      field. apply not_0_INR. simpl; lia. }
    unfold Sxx. rewrite Hm.
    rewrite (sum_map_ext _ (fun _ => 0)).
    + apply sum_map_zero.
    + intros x Hx. rewrite (Hv x Hx). ring.
Qed.

Lemma Sxx_zero_same_x (xs ys : list R) :
  positive_points xs ys <> [] ->
  (Sxx (log_xs xs ys) = 0 <-> same_x (positive_points xs ys)).
Proof.
  intros Hne. unfold log_xs.
  rewrite Sxx_zero_iff by (destruct (positive_points xs ys); simpl; congruence).
  split.
  - intros H p q Hp Hq.
    destruct (positive_points_pos _ _ _ Hp), (positive_points_pos _ _ _ Hq).
    apply log10_inj; trivial.
    apply H; apply (in_map (fun p => log10 (fst p))); assumption.
  - intros H x y Hx Hy.
    apply in_map_iff in Hx as [p [<- Hp]].
    apply in_map_iff in Hy as [q [<- Hq]].
    now rewrite (H p q).
Qed.

Lemma ols_log10_none_iff (xs ys : list R) :
  ols_log10 xs ys = None <->
  (length (positive_points xs ys) < 3)%nat \/ same_x (positive_points xs ys).
Proof.
  rewrite ols_log10_unfold; cbv zeta.
  destruct (length (positive_points xs ys) <? 3)%nat eqn:E.
  - apply Nat.ltb_lt in E. tauto.
  - apply Nat.ltb_ge in E.
    assert (Hne : positive_points xs ys <> []).
    { destruct (positive_points xs ys); simpl in E; [lia|congruence]. }
    pose proof (Sxx_zero_same_x xs ys Hne) as Hz.
    destruct (Reqb (Sxx (log_xs xs ys)) 0) eqn:E2.
    + apply Reqb_true in E2. tauto.
    + apply Reqb_false in E2. split; [discriminate|].
      intros [H|H]; [lia|]. tauto.
Qed.

Lemma ols_log10_some_inv (xs ys : list R) (f : FitResult) :
  ols_log10 xs ys = Some f ->
  let lx := log_xs xs ys in
  let ly := log_ys xs ys in
  let df := (Z.of_nat (length lx) - 2)%Z in
  let se := sqrt (RSS (fit_m f) (fit_b f) lx ly / IZR (Z.max 1 df) / Sxx lx) in
  (3 <= length lx)%nat /\ 0 < Sxx lx /\
  fit_m f = Sxy lx ly / Sxx lx /\
  fit_b f = mean ly - fit_m f * mean lx /\
  fit_lo f = Fin (fit_m f - tcrit df * se) /\
  fit_hi f = Fin (fit_m f + tcrit df * se) /\
  fit_r2 f = (if Reqb (TSS ly) 0 then 0
              else 1 - RSS (fit_m f) (fit_b f) lx ly / TSS ly) /\
  fit_n f = length lx.
Proof.
  rewrite ols_log10_unfold; cbv zeta.
  destruct (length (positive_points xs ys) <? 3)%nat eqn:E; [discriminate|].
  apply Nat.ltb_ge in E.
  destruct (Reqb (Sxx (log_xs xs ys)) 0) eqn:E2; [discriminate|].
  apply Reqb_false in E2.
  pose proof (Sxx_nonneg (log_xs xs ys)) as Hn.
  assert (Hp : 0 < Sxx (log_xs xs ys)) by lra.
  apply Rgtb_true in Hp as Hb. rewrite Hb.
  intros H; injection H as <-. cbn [fit_m fit_b fit_lo fit_hi fit_r2 fit_n].
  unfold log_xs at 1. rewrite length_map.
  cbn [fmul fsub fadd]. repeat split; trivial.
Qed.

(** C6: whenever a fit is produced, the interval is slope -/+ t * SE with
    SE = sqrt((RSS / max(1, df)) / Sxx), df = n - 2, Sxx the unnormalized sum
    of squared deviations of log10(x), and t read from the fixed table:
    df <= 0 gives 1.96, df = 1 gives 12.706, df = 2 gives 4.303, df <= 20
    gives 2.086, anything larger 1.96. *)
Theorem ols_log10_confidence_interval (xs ys : list R) (f : FitResult) :
  ols_log10 xs ys = Some f ->
  let lx := log_xs xs ys in
  let ly := log_ys xs ys in
  let df := (Z.of_nat (fit_n f) - 2)%Z in
  let SE := sqrt (RSS (fit_m f) (fit_b f) lx ly / IZR (Z.max 1 df) / Sxx lx) in
  fit_n f = length (positive_points xs ys) /\
  fit_lo f = Fin (fit_m f - tcrit df * SE) /\
  fit_hi f = Fin (fit_m f + tcrit df * SE) /\
  forall d : Z,
    ((d <= 0)%Z -> tcrit d = 1.96) /\
    (d = 1%Z -> tcrit d = 12.706) /\
    (d = 2%Z -> tcrit d = 4.303) /\
    ((3 <= d <= 20)%Z -> tcrit d = 2.086) /\
    ((20 < d)%Z -> tcrit d = 1.96).
Proof.
  intros H. apply ols_log10_some_inv in H. cbv zeta in *.
  destruct H as (_ & _ & _ & _ & Hlo & Hhi & _ & Hn).
  rewrite Hn. split; [unfold log_xs; apply length_map|].
  split; [exact Hlo|]. split; [exact Hhi|].
  intros d. unfold tcrit.
  repeat split; intros Hd.
  - apply Z.leb_le in Hd. now rewrite Hd.
  - subst d. reflexivity.
  - subst d. reflexivity.
  - destruct (d <=? 0)%Z eqn:E1; [apply Z.leb_le in E1; lia|].
    destruct (d =? 1)%Z eqn:E2; [apply Z.eqb_eq in E2; lia|].
    destruct (d =? 2)%Z eqn:E3; [apply Z.eqb_eq in E3; lia|].
    destruct (d <=? 20)%Z eqn:E4; [reflexivity|apply Z.leb_gt in E4; lia].
  - destruct (d <=? 0)%Z eqn:E1; [apply Z.leb_le in E1; lia|].
    destruct (d =? 1)%Z eqn:E2; [apply Z.eqb_eq in E2; lia|].
    destruct (d =? 2)%Z eqn:E3; [apply Z.eqb_eq in E3; lia|].
    destruct (d <=? 20)%Z eqn:E4; [apply Z.leb_le in E4; lia|reflexivity].
Qed.

(** C10, as the code has it: whenever the fitter returns a result for
    finite values (the xs and ys are real numbers), its bounds are finite,
    centred on the slope and bracket it: lo <= m <= hi. *)
Theorem ols_log10_interval_brackets_slope (xs ys : list R) (f : FitResult) :
  ols_log10 xs ys = Some f ->
  exists lo hi : R,
    fit_lo f = Fin lo /\ fit_hi f = Fin hi /\
    lo <= fit_m f <= hi /\ fit_m f - lo = hi - fit_m f /\
    fle_r (fit_lo f) (fit_m f) /\ fle_l (fit_m f) (fit_hi f).
Proof.
  intros H. apply ols_log10_some_inv in H. cbv zeta in H.
  destruct H as (_ & _ & _ & _ & Hlo & Hhi & _).
  set (df := (Z.of_nat (length (log_xs xs ys)) - 2)%Z) in *.
  pose proof (tcrit_pos df) as Ht.
  match type of Hlo with context [sqrt ?e] => pose proof (sqrt_pos e) as Hs;
    set (se := sqrt e) in * end.
  assert (0 <= tcrit df * se) by (apply Rmult_le_pos; lra).
  exists (fit_m f - tcrit df * se), (fit_m f + tcrit df * se).
  rewrite Hlo, Hhi. cbn [fle_r fle_l].
  repeat split; trivial; lra.
Qed.

(** ** Points on an exact log-log line *)

Lemma mean_affine (c a : R) (lx : list R) :
  lx <> [] -> mean (map (fun x => c + a * x) lx) = c + a * mean lx.
Proof.
  intros Hne. unfold mean. rewrite sum_map_affine, length_map.
  field. apply not_0_INR. destruct lx; simpl; [congruence|lia].
Qed.

Lemma combine_map_self {A B : Type} (g : A -> B) (l : list A) :
  combine l (map g l) = map (fun x => (x, g x)) l.
Proof. induction l as [|x l IH]; simpl; [reflexivity|now rewrite IH]. Qed.

Lemma Sxy_affine (c a : R) (lx : list R) :
  lx <> [] -> Sxy lx (map (fun x => c + a * x) lx) = a * Sxx lx.
Proof.
  intros Hne. unfold Sxy, Sxx.
  rewrite combine_map_self, map_map, mean_affine by assumption.
  cbn [fst snd]. rewrite <- sum_map_scale.
  apply sum_map_ext. intros x _. ring.
Qed.

Lemma RSS_affine (c a : R) (lx : list R) :
  RSS a c lx (map (fun x => c + a * x) lx) = 0.
Proof.
  unfold RSS. rewrite combine_map_self, map_map. cbn [fst snd].
  rewrite (sum_map_ext _ (fun _ => 0)); [apply sum_map_zero|].
  intros x _. ring.
Qed.

Lemma TSS_affine (c a : R) (lx : list R) :
  lx <> [] -> TSS (map (fun x => c + a * x) lx) = a ^ 2 * Sxx lx.
Proof.
  intros Hne. unfold TSS, Sxx.
  rewrite map_map, mean_affine by assumption.
  rewrite <- sum_map_scale. apply sum_map_ext. intros x _. ring.
Qed.

(** The fit of points that satisfy [log10 y = c + a * log10 x]. *)
Lemma ols_log10_on_line (xs ys : list R) (c a : R) :
  (3 <= length (positive_points xs ys))%nat ->
  ~ same_x (positive_points xs ys) ->
  (forall p, In p (positive_points xs ys) ->
             log10 (snd p) = c + a * log10 (fst p)) ->
  exists f, ols_log10 xs ys = Some f /\ fit_m f = a /\ fit_b f = c /\
            fit_r2 f = (if Reqb a 0 then 0 else 1).
Proof.
  intros Hlen Hns Hline.
  destruct (ols_log10 xs ys) as [f|] eqn:E.
  2:{ apply ols_log10_none_iff in E. destruct E; [lia|contradiction]. }
  exists f. split; [reflexivity|].
  apply ols_log10_some_inv in E. cbv zeta in E.
  destruct E as (_ & Hpos & Hm & Hb & _ & _ & Hr & _).
  assert (Hly : log_ys xs ys = map (fun x => c + a * x) (log_xs xs ys)).
  { unfold log_ys, log_xs. rewrite map_map. apply map_ext_in. exact Hline. }
  assert (Hne : log_xs xs ys <> []).
  { unfold log_xs. destruct (positive_points xs ys); simpl in *;
      [lia|congruence]. }
  rewrite Hly in *.
  rewrite Sxy_affine in Hm by assumption.
  assert (Hma : fit_m f = a) by (rewrite Hm; field; lra).
  rewrite mean_affine in Hb by assumption.
  assert (Hbc : fit_b f = c) by (rewrite Hb, Hma; ring).
  rewrite Hma, Hbc, RSS_affine, TSS_affine in Hr by assumption.
  repeat split; trivial. rewrite Hr.
  destruct (Reqb a 0) eqn:Ea.
  - apply Reqb_true in Ea. rewrite Ea.
    replace (0 ^ 2 * Sxx (log_xs xs ys)) with 0 by ring.
    assert (Ez : Reqb 0 0 = true) by now apply Reqb_true.
    now rewrite Ez.
  - apply Reqb_false in Ea.
    assert (Hnz : a ^ 2 * Sxx (log_xs xs ys) <> 0).
    { apply Rmult_integral_contrapositive_currified; [|lra].
      apply pow_nonzero; assumption. }
    apply Reqb_false in Hnz. rewrite Hnz. field. split; [lra|assumption].
Qed.

Lemma positive_points_all (xs : list R) (g : R -> R) :
  (forall x, In x xs -> 0 < x /\ 0 < g x) ->
  positive_points xs (map g xs) = map (fun x => (x, g x)) xs.
Proof.
  intros H. unfold positive_points. rewrite combine_map_self.
  induction xs as [|x l IH]; simpl; [reflexivity|].
  destruct (H x) as [Hx Hg]; auto with datatypes.
  apply Rgtb_true in Hx, Hg. rewrite Hx, Hg. simpl.
  rewrite IH; [reflexivity|]. intros y Hy. apply H; auto with datatypes.
Qed.

Lemma ols_log10_power_law (C a : R) (xs : list R) :
  0 < C -> (3 <= length xs)%nat -> (forall x, In x xs -> 0 < x) ->
  (exists x x', In x xs /\ In x' xs /\ x <> x') ->
  exists f, ols_log10 xs (power_law C a xs) = Some f /\
            fit_m f = a /\ fit_b f = log10 C /\
            fit_r2 f = (if Reqb a 0 then 0 else 1).
Proof.
  intros HC Hlen Hpos (x & x' & Hx & Hx' & Hneq).
  assert (Hg : forall x, In x xs -> 0 < x /\ 0 < C * Rpower x a).
  { intros y Hy. split; [auto|].
    apply Rmult_lt_0_compat; [assumption|apply exp_pos]. }
  pose proof (positive_points_all xs _ Hg) as Hpts.
  fold (power_law C a xs) in Hpts.
  apply ols_log10_on_line; rewrite Hpts.
  - now rewrite length_map.
  - intros Hs. apply Hneq.
    apply (Hs (x, C * Rpower x a) (x', C * Rpower x' a));
      apply (in_map (fun x => (x, C * Rpower x a))); assumption.
  - intros p Hp. apply in_map_iff in Hp as [y [<- Hy]]. cbn [fst snd].
    rewrite log10_mult, log10_Rpower; [reflexivity|assumption|apply exp_pos].
Qed.




Lemma ols_log10_confidence_interval_example :
  exists f,
    ols_log10 [1; 10; 100] (power_law 1 1 [1; 10; 100]) = Some f /\
    fit_n f = length (positive_points [1; 10; 100]
                        (power_law 1 1 [1; 10; 100])) /\
    fit_lo f =
      Fin (fit_m f
           - tcrit (Z.of_nat (fit_n f) - 2)
             * sqrt (RSS (fit_m f) (fit_b f)
                       (log_xs [1; 10; 100] (power_law 1 1 [1; 10; 100]))
                       (log_ys [1; 10; 100] (power_law 1 1 [1; 10; 100]))
                     / IZR (Z.max 1 (Z.of_nat (fit_n f) - 2))
                     / Sxx (log_xs [1; 10; 100]
                              (power_law 1 1 [1; 10; 100])))).
Proof.
  destruct (ols_log10_power_law 1 1 [1; 10; 100]) as (f & Hf & _).
  - lra.
  - simpl; lia.
  - simpl; intros x [<-|[<-|[<-|[]]]]; lra.
  - exists 1, 10. simpl. repeat split; auto; lra.
  - exists f. split; [exact Hf|].
    destruct (ols_log10_confidence_interval _ _ f Hf) as (Hn & Hlo & _).
    split; [exact Hn|exact Hlo].
Defined.

Lemma ols_log10_interval_brackets_slope_example :
  exists f,
    ols_log10 [1; 10; 100] (power_law 1 1 [1; 10; 100]) = Some f /\
    fle_r (fit_lo f) (fit_m f) /\ fle_l (fit_m f) (fit_hi f).
Proof.
  destruct (ols_log10_power_law 1 1 [1; 10; 100]) as (f & Hf & _).
  - lra.
  - simpl; lia.
  - simpl; intros x [<-|[<-|[<-|[]]]]; lra.
  - exists 1, 10. simpl. repeat split; auto; lra.
  - exists f. split; [exact Hf|].
    destruct (ols_log10_interval_brackets_slope _ _ f Hf)
      as (lo & hi & _ & _ & _ & _ & H).
    exact H.
Defined.

(** ** Rounding and infinite values *)

Module Binary64Facts.

Import Floats.
Import Binary64.
#[local] Open Scope float_scope.

(** C3 at three points with the same x.  For x = 6 the mean of the three
    equal logarithms, [(l + l + l) / 3], rounds to the binary64 number
    below [l]; every deviation is 2^-53, [sxx] is 3 * 2^-106 and not 0, and
    the fitter returns a fit, with slope 0 and an interval of +-9.3e16,
    where all retained xs are identical.  For x = 60 the mean is exact, and
    the fitter returns [None]. *)
Theorem ols_log10_identical_x_fitted :
  ols_log10 log10_at pow_at [6; 6; 6] [1; 10; 100]
  = Some {| fit_m := 0; fit_b := 1;
            fit_lo := -0x1.4bfb215cfcf8dp+56;
            fit_hi := 0x1.4bfb215cfcf8dp+56;
            fit_r2 := 0; fit_n := 3 |} /\
  sum [log10_at 6; log10_at 6; log10_at 6] / 3 <> log10_at 6 /\
  ols_log10 log10_at pow_at [60; 60; 60] [1; 10; 100] = None.
Proof.
  split; [vm_compute; reflexivity|]. split; [|vm_compute; reflexivity].
  vm_compute. discriminate.
Qed.

(** C10 as stated fails when a retained value is infinite: for the xs
    1, 10 and [inf] the mean of the logarithms is [inf], the deviation
    [inf - inf] is NaN, [sxx == 0] is false, and the fit that is returned
    has NaN as slope and as bounds, so neither lo <= m nor m <= hi holds. *)
Lemma ols_log10_infinite_x_not_bracketed :
  exists f,
    ols_log10 log10_at pow_at [1; 10; infinity] [1; 10; 100] = Some f /\
    fit_m f = nan /\ fit_lo f = nan /\ fit_hi f = nan /\
    (fit_lo f <=? fit_m f) = false /\ (fit_m f <=? fit_hi f) = false.
Proof.
  eexists. split; [vm_compute; reflexivity|].
  repeat split; reflexivity.
Qed.

End Binary64Facts.

(** ** The loader *)

Lemma length_insert_row (t : row) (l : list row) :
  length (insert_row t l) = S (length l).
Proof.
  induction l as [|h tl IH]; simpl; [reflexivity|].
  destruct (Rlt_dec (key t) (key h)); simpl; [reflexivity|now rewrite IH].
Qed.

Lemma length_sorted (l : list row) : length (sorted l) = length l.
Proof.
  unfold sorted.
  assert (H : forall acc,
             length (fold_left (fun acc t => insert_row t acc) l acc)
             = (length l + length acc)%nat).
  { induction l as [|t l IH]; intros acc; simpl; [reflexivity|].
    rewrite IH, length_insert_row. lia. }
  rewrite H. simpl. lia.
Qed.

Lemma length_zip3 (xs ys : list R) (runs : list Z) :
  length ys = length xs -> length runs = length xs ->
  length (zip3 xs ys runs) = length xs.
Proof.
  intros Hy Hr.
  change (length (combine (combine xs ys) runs) = length xs).
  rewrite !length_combine. lia.
Qed.

Section LoaderFacts.

Variable float_of_str : string -> option R.
Variable int_of_str : string -> option Z.


(** A dict-schema element whose ["dt"] or ["tail_median"] is missing or
    not numeric is skipped, and so is an element that is not a dict. *)
Lemma load_items_skips_bad_item (d : dict) (e : exn) (rest : list json)
    (acc : cols) :
  parse_item float_of_str d = Raise e ->
  load_items float_of_str int_of_str (JObj d :: rest) acc
  = load_items float_of_str int_of_str rest acc.
Proof. intros H. cbn [load_items]. now rewrite H. Qed.

Lemma load_items_lengths (items : list json) (acc acc' : cols) :
  load_items float_of_str int_of_str items acc = Ok acc' ->
  length (snd (fst acc)) = length (fst (fst acc)) ->
  length (snd acc) = length (fst (fst acc)) ->
  length (snd (fst acc')) = length (fst (fst acc')) /\
  length (snd acc') = length (fst (fst acc')).
Proof.
  revert acc. induction items as [|it rest IH]; intros acc H Hy Hr.
  - simpl in H. injection H as <-. auto.
  - cbn [load_items] in H.
    destruct it; try (now apply (IH acc)).
    destruct (parse_item float_of_str kv) as [[x y]|]; [|now apply (IH acc)].
    destruct (Rgtb x 0 && Rgtb y 0); [|now apply (IH acc)].
    destruct acc as [[xs ys] runs].
    destruct (py_int int_of_str (get_default kv "runs" (JInt 0))) as [r|];
      simpl in H; [|discriminate].
    apply IH in H; trivial; simpl in *; rewrite !length_app; simpl; lia.
Qed.

Lemma load_points_lengths (pts : list json) (acc acc' : list R * list R) :
  load_points float_of_str pts acc = Ok acc' ->
  length (snd acc) = length (fst acc) ->
  length (snd acc') = length (fst acc').
Proof.
  revert acc. induction pts as [|e rest IH]; intros acc H Hy.
  - simpl in H. injection H as <-. auto.
  - cbn [load_points] in H.
    destruct e; try (now apply (IH acc)).
    destruct l as [|p0 [|p1 l]]; try (now apply (IH acc)).
    destruct (py_float float_of_str p0) as [x|]; simpl in H; [|discriminate].
    destruct (py_float float_of_str p1) as [y|]; simpl in H; [|discriminate].
    destruct (Rgtb x 0 && Rgtb y 0); [|now apply (IH acc)].
    destruct acc as [xs ys].
    apply IH in H; trivial; simpl in *; rewrite !length_app; simpl; lia.
Qed.

Lemma length_sorted_xs (xs ys : list R) (runs : list Z) :
  length ys = length xs -> length runs = length xs ->
  length (map (fun t : row => fst (fst t)) (sorted (zip3 xs ys runs)))
  = length xs.
Proof.
  intros Hy Hr. now rewrite length_map, length_sorted, length_zip3.
Qed.

Lemma count_of_length (xs0 xs : list R) :
  length xs = length xs0 ->
  match xs0 with
  | [] => None
  | _ :: _ => Some (Z.of_nat (length xs0))
  end
  = match xs with
    | [] => None
    | _ :: _ => Some (Z.of_nat (length xs))
    end.
Proof.
  intros H. destruct xs0, xs; simpl in H; try discriminate; trivial.
  cbn [length]. now rewrite H.
Qed.

(** C9, as the code has it: for the dict schema the declared count is the
    number of retained points, absent when there are none; for the points
    schema it is absent when no point is retained, and otherwise [int] of the
    ["n"] field when the field is present and the number of retained points
    when it is not. *)
Theorem load_series_declared_count (obj : dict) (xs ys : list R)
    (runs : list Z) (n_pts : option Z) :
  load_series float_of_str int_of_str obj = Ok (xs, ys, runs, n_pts) ->
  let items := _try_get obj ["report"; "series"]%string (JList []) in
  (is_dict_schema items = true ->
   n_pts = match xs with
           | [] => None
           | _ :: _ => Some (Z.of_nat (length xs))
           end) /\
  (is_dict_schema items = false ->
   forall pts, dict_get "points" obj = Some (JList pts) ->
   match xs with
   | [] => n_pts = None
   | _ :: _ =>
       match dict_get "n" obj with
       | Some v =>
           exists z, py_int int_of_str v = Ok z /\ n_pts = Some z /\
                     (forall k, v = JInt k -> z = k)
       | None => n_pts = Some (Z.of_nat (length xs))
       end
   end).
Proof.
  intros H. cbv zeta. unfold load_series in H. cbv zeta in H.
  destruct (is_dict_schema (_try_get obj ["report"; "series"]%string
                              (JList []))).
  - split; [intros _|discriminate].
    destruct (load_items float_of_str int_of_str
                (list_of (_try_get obj ["report"; "series"]%string
                            (JList []))) ([], [], []))
      as [[[xs0 ys0] runs0]|] eqn:E; simpl in H; [|discriminate].
    apply load_items_lengths in E as [Hy Hr]; trivial. simpl in Hy, Hr.
    injection H as <- _ _ <-.
    apply count_of_length. now apply length_sorted_xs.
  - split; [discriminate|intros _ pts Hp]. rewrite Hp in H.
    destruct (load_points float_of_str pts ([], []))
      as [[xs0 ys0]|] eqn:E; simpl in H; [|discriminate].
    apply load_points_lengths in E; trivial. simpl in E.
    assert (Hlen : length xs = length xs0).
    { destruct xs0 as [|x0 l0].
      - simpl in H. injection H as <- _ _ _. reflexivity.
      - destruct (py_int int_of_str
                    (get_default obj "n"
                       (JInt (Z.of_nat (length (x0 :: l0)))))); simpl in H;
          [|discriminate].
        injection H as <- _ _ _.
        apply length_sorted_xs; trivial.
        cbn [length]. now rewrite repeat_length. }
    destruct xs0 as [|x0 l0].
    + destruct xs; [|discriminate]. simpl in H. now injection H as <-.
    + destruct xs as [|x l]; [discriminate|].
      unfold get_default in H.
      destruct (dict_get "n" obj) as [v|].
      * destruct (py_int int_of_str v) as [z|] eqn:Ez; simpl in H;
          [|discriminate].
        exists z. injection H as _ _ _ <-. repeat split; trivial.
        intros k ->. simpl in Ez. congruence.
      * simpl in H. injection H as _ _ _ <-. now rewrite Hlen.
Qed.

End LoaderFacts.

(** Decide the comparisons of closed real expressions met while running
    the code on a concrete input. *)
Ltac Rcmp :=
  repeat match goal with
  | |- context [Rgtb ?a ?b] =>
      first [ rewrite (proj2 (Rgtb_true a b)) by lra
            | rewrite (proj2 (Rgtb_false a b)) by lra ]
  | |- context [Rleb ?a ?b] =>
      first [ rewrite (proj2 (Rleb_true a b)) by lra
            | rewrite (proj2 (Rleb_false a b)) by lra ]
  | |- context [Reqb ?a ?b] =>
      first [ rewrite (proj2 (Reqb_true a b)) by lra
            | rewrite (proj2 (Reqb_false a b)) by lra ]
  | |- context [Rlt_dec ?a ?b] =>
      destruct (Rlt_dec a b); [ try (exfalso; lra) | try (exfalso; lra) ]
  end.

Section LoaderExamples.

Variable float_of_str : string -> option R.
Variable int_of_str : string -> option Z.

(** C4 at a points-schema record with a non-numeric field,
    [{"points": [[null, 1.0], [0.01, 0.5]]}]: [float(None)] is outside any
    [try], so the load raises instead of skipping the entry. *)
Theorem load_series_points_nonnumeric_raises :
  load_series float_of_str int_of_str
    [("points"%string,
      JList [JList [JNull; JFloat 1]; JList [JFloat 0.01; JFloat 0.5]])]
  = Raise TypeError.
Proof. reflexivity. Qed.

(** The same entries under the dict schema,
    [{"series": [{"dt": null, "tail_median": 1.0},
                 {"dt": 0.01, "tail_median": 0.5}]}]:
    the first is skipped and the second is loaded. *)
Lemma load_series_dict_nonnumeric_skipped :
  load_series float_of_str int_of_str
    [("series"%string,
      JList [JObj [("dt"%string, JNull); ("tail_median"%string, JFloat 1)];
             JObj [("dt"%string, JFloat 0.01);
                   ("tail_median"%string, JFloat 0.5)]])]
  = Ok ([0.01], [0.5], [0%Z], Some 1%Z).
Proof.
  unfold load_series. cbn -[Rgtb]. Rcmp. cbn. reflexivity.
Qed.

End LoaderExamples.

Lemma load_series_declared_count_example :
  load_series no_float_str no_int_str
    [("points"%string, JList [JList [JInt 1; JInt 2]]);
     ("n"%string, JInt 7)]
  = Ok ([1], [2], [0%Z], Some 7%Z) /\
  exists z, py_int no_int_str (JInt 7) = Ok z /\ Some 7%Z = Some z.
Proof.
  assert (H : load_series no_float_str no_int_str
                [("points"%string, JList [JList [JInt 1; JInt 2]]);
                 ("n"%string, JInt 7)]
              = Ok ([1], [2], [0%Z], Some 7%Z)).
  { unfold load_series. cbn -[Rgtb]. Rcmp. cbn. reflexivity. }
  split; [exact H|].
  destruct (load_series_declared_count _ _ _ _ _ _ _ H) as [_ H2].
  destruct (H2 eq_refl _ eq_refl) as (z & Hz & Hn & _).
  exists z. split; assumption.
Defined.

(** C9 as stated fails on a points-schema record without a retained point:
    for [{"points": [], "n": 5}] the declared count is absent, not 5. *)
Lemma load_series_declared_count_empty_points :
  (forall fs is_,
     load_series fs is_
       [("points"%string, JList []); ("n"%string, JInt 5)]
     = Ok ([], [], [], None)) /\
  ~ (exists fs is_ xs ys runs,
       load_series fs is_
         [("points"%string, JList []); ("n"%string, JInt 5)]
       = Ok (xs, ys, runs, Some 5%Z)).
Proof.
  split; [reflexivity|].
  intros (fs & is_ & xs & ys & runs & H). discriminate H.
Qed.

(** Under the dict schema a ["runs"] field that is not numeric is evaluated
    outside the [try] and is fatal as well. *)
Lemma load_series_dict_bad_runs_raises :
  forall fs is_,
    load_series fs is_
      [("series"%string,
        JList [JObj [("dt"%string, JFloat 0.01);
                     ("tail_median"%string, JFloat 0.5);
                     ("runs"%string, JNull)]])]
    = Raise TypeError.
Proof.
  intros fs is_. unfold load_series. cbn -[Rgtb]. Rcmp. reflexivity.
Qed.

(** ** The tick selector *)

Lemma linspace_int_length (last num : nat) :
  length (linspace_int last num) = num.
Proof. unfold linspace_int. now rewrite length_map, length_seq. Qed.

Lemma linspace_int_bound (last num i : nat) :
  In i (linspace_int last num) -> (num <= S last)%nat -> (i <= last)%nat.
Proof.
  unfold linspace_int. intros Hin Hnum.
  apply in_map_iff in Hin as [j [<- Hj]]. apply in_seq in Hj.
  apply Nat.Div0.div_le_upper_bound.
  apply Nat.mul_le_mono_r. lia.
Qed.

Lemma ticks_positive_unfold (lo hi : R) (max_labels : nat) :
  0 < lo -> 0 < hi ->
  _nice_sparse_log_ticks (Fin lo) (Fin hi) max_labels =
  let base := powerRZ 10 (Int_part (log10 lo)) in
  let picks :=
    filter (fun c => Rleb (lo / base - tol_default) c
                     && Rleb c (hi / base + tol_default)) cand in
  let picks :=
    match picks with
    | [] => geomspace (Rmax 1 (lo / base)) (Rmin 9.99 (hi / base)) max_labels
    | _ => picks
    end in
  map (fun i => nth i picks 0 * base)
      (linspace_int (length picks - 1) (min max_labels (length picks))).
Proof.
  intros Hlo Hhi. unfold _nice_sparse_log_ticks.
  apply Rleb_false in Hlo, Hhi. rewrite Hlo, Hhi. reflexivity.
Qed.

(** C8, as the code has it: the selector returns no tick when [ymin] or
    [ymax] is non-positive or not finite; otherwise it returns at most
    [max_labels] values, and whenever some candidate mantissa times
    10^floor(log10(ymin)) lies in the range widened by 1e-12 times that
    power of ten, every returned value lies in the widened range. *)
Theorem nice_sparse_log_ticks_range (ymin ymax : float) (max_labels : nat) :
  let ticks := _nice_sparse_log_ticks ymin ymax max_labels in
  ((is_finite ymin = false \/ is_finite ymax = false \/
    (exists r, ymin = Fin r /\ r <= 0) \/ (exists r, ymax = Fin r /\ r <= 0))
   -> ticks = []) /\
  (length ticks <= max_labels)%nat /\
  (forall lo hi, ymin = Fin lo -> ymax = Fin hi -> 0 < lo -> 0 < hi ->
     let base := powerRZ 10 (Int_part (log10 lo)) in
     (exists c, In c cand /\
                lo - tol_default * base <= c * base
                /\ c * base <= hi + tol_default * base) ->
     forall v, In v ticks ->
               lo - tol_default * base <= v <= hi + tol_default * base).
Proof.
  cbv zeta. split; [|split].
  - unfold _nice_sparse_log_ticks.
    intros [H|[H|[(r & -> & Hr)|(r & -> & Hr)]]].
    + destruct ymin; try discriminate H; reflexivity.
    + destruct ymin, ymax; try discriminate H; reflexivity.
    + apply Rleb_true in Hr. rewrite Hr.
      destruct ymax; reflexivity.
    + destruct ymin as [r0| | |]; try reflexivity.
      apply Rleb_true in Hr. rewrite Hr, orb_true_r. reflexivity.
  - unfold _nice_sparse_log_ticks.
    destruct ymin as [lo| | |]; try apply Nat.le_0_l.
    destruct ymax as [hi| | |]; try apply Nat.le_0_l.
    destruct (Rleb lo 0 || Rleb hi 0); [apply Nat.le_0_l|].
    cbv zeta. rewrite length_map, linspace_int_length.
    apply Nat.le_min_l.
  - intros lo hi -> -> Hlo Hhi (c & Hc & Hcl & Hch) v Hv.
    rewrite ticks_positive_unfold in Hv by assumption. cbv zeta in Hv.
    set (base := powerRZ 10 (Int_part (log10 lo))) in *.
    assert (Hb : 0 < base) by (apply powerRZ_lt; lra).
    set (keep := fun c : R => Rleb (lo / base - tol_default) c
                              && Rleb c (hi / base + tol_default)) in *.
    assert (Hkeep : forall c, keep c = true ->
              lo - tol_default * base <= c * base <= hi + tol_default * base).
    { intros c0 H0. unfold keep in H0.
      apply andb_true_iff in H0 as [H1 H2].
      apply Rleb_true in H1, H2.
      apply (Rmult_le_compat_r base) in H1, H2; try lra.
      replace ((lo / base - tol_default) * base)
        with (lo - tol_default * base) in H1 by (field; lra).
      replace ((hi / base + tol_default) * base)
        with (hi + tol_default * base) in H2 by (field; lra).
      lra. }
    assert (Hk : keep c = true).
    { unfold keep. apply andb_true_iff. split; apply Rleb_true.
      - apply (Rmult_le_reg_r base); [assumption|].
        replace ((lo / base - tol_default) * base)
          with (lo - tol_default * base) by (field; lra).
        exact Hcl.
      - apply (Rmult_le_reg_r base); [assumption|].
        replace ((hi / base + tol_default) * base)
          with (hi + tol_default * base) by (field; lra).
        exact Hch. }
    assert (Hin : In c (filter keep cand)) by (apply filter_In; auto).
    destruct (filter keep cand) as [|p0 ps] eqn:Ep; [contradiction|].
    apply in_map_iff in Hv as [i [<- Hi]].
    apply linspace_int_bound in Hi; [|cbn [length]; lia].
    apply Hkeep.
    assert (Hn : In (nth i (p0 :: ps) 0) (filter keep cand)).
    { rewrite Ep. apply nth_In. cbn [length] in *. lia. }
    apply filter_In in Hn. tauto.
Qed.

Lemma Int_part_log10_unit (y : R) :
  1 <= y < 10 -> Int_part (log10 y) = 0%Z.
Proof.
  intros [H1 H10]. symmetry. apply Int_part_spec.
  pose proof ln_10_pos as Hp.
  assert (H0 : 0 <= ln y).
  { destruct H1 as [H1| <-]; [|rewrite ln_1; lra].
    rewrite <- ln_1. left. apply ln_increasing; lra. }
  assert (Hl : ln y < ln 10) by (apply ln_increasing; lra).
  unfold log10. split.
  - apply (Rmult_lt_reg_r (ln 10)); [assumption|].
    replace ((ln y / ln 10 - 1) * ln 10) with (ln y - ln 10) by (field; lra).
    lra.
  - apply (Rmult_le_reg_r (ln 10)); [assumption|].
    replace (ln y / ln 10 * ln 10) with (ln y) by (field; lra).
    lra.
Qed.

Lemma cand_cons :
  cand = (1 + 0.2 * INR 0) :: map (fun i => 1 + 0.2 * INR i) (seq 1 44).
Proof. reflexivity. Qed.

Lemma filter_cons_true {A : Type} (f : A -> bool) (a : A) (l : list A) :
  f a = true -> filter f (a :: l) = a :: filter f l.
Proof. intros H. cbn [filter]. now rewrite H. Qed.

Lemma filter_cand_head (keep : R -> bool) :
  keep (1 + 0.2 * INR 0) = true ->
  exists tl, filter keep cand = (1 + 0.2 * INR 0) :: tl.
Proof.
  intros Hc. rewrite cand_cons, (filter_cons_true keep _ _ Hc).
  eexists; reflexivity.
Qed.

(** The first retained candidate is always among the ticks. *)
Lemma ticks_head (lo hi : R) (n : nat) (c : R) (tl : list R) :
  0 < lo -> 0 < hi -> (0 < n)%nat ->
  let base := powerRZ 10 (Int_part (log10 lo)) in
  filter (fun c => Rleb (lo / base - tol_default) c
                   && Rleb c (hi / base + tol_default)) cand = c :: tl ->
  In (c * base) (_nice_sparse_log_ticks (Fin lo) (Fin hi) n).
Proof.
  intros Hlo Hhi Hn base Hf.
  rewrite ticks_positive_unfold by assumption. cbv zeta.
  fold base. rewrite Hf.
  apply (in_map (fun i => nth i (c :: tl) 0 * base) _ 0%nat).
  unfold linspace_int. apply in_map_iff. exists 0%nat. split.
  - rewrite Nat.mul_0_l. apply Nat.Div0.div_0_l.
  - apply in_seq. cbn [length]. lia.
Qed.

(** C8 as stated fails by the tolerance of the candidate filter: for
    ymin = 1.0000000000005 and ymax = 2 the decade is 10^0, the candidate
    1.2 lies in [ymin, ymax], and the first returned tick is 1.0, below
    ymin. *)
Lemma nice_sparse_log_ticks_below_ymin :
  let ymin := 1 + 5 / 10 ^ 13 in
  let ymax := 2 in
  powerRZ 10 (Int_part (log10 ymin)) = 1 /\
  (exists c, In c cand /\ c = 1.2 /\
             ymin <= c * powerRZ 10 (Int_part (log10 ymin)) <= ymax) /\
  exists v, In v (_nice_sparse_log_ticks (Fin ymin) (Fin ymax) 4) /\
            v = 1 /\ v < ymin.
Proof.
  cbv zeta.
  assert (Hk : Int_part (log10 (1 + 5 / 10 ^ 13)) = 0%Z)
    by (apply Int_part_log10_unit; lra).
  assert (H0 : INR 0 = 0) by reflexivity.
  assert (H1 : INR 1 = 1) by reflexivity.
  assert (Hb : powerRZ 10 (Int_part (log10 (1 + 5 / 10 ^ 13))) = 1)
    by (rewrite Hk; apply powerRZ_O).
  split; [exact Hb|]. split.
  - exists (1 + 0.2 * INR 1). rewrite Hb, H1. split; [|lra].
    rewrite <- H1 at 2.
    unfold cand. apply (in_map (fun i => 1 + 0.2 * INR i)).
    apply in_seq. lia.
  - destruct (filter_cand_head
                (fun c => Rleb ((1 + 5 / 10 ^ 13)
                                / powerRZ 10 (Int_part
                                                (log10 (1 + 5 / 10 ^ 13)))
                                - tol_default) c
                          && Rleb c (2 / powerRZ 10
                                           (Int_part
                                              (log10 (1 + 5 / 10 ^ 13)))
                                     + tol_default))) as [tl Htl].
    { rewrite Hb, H0. unfold tol_default. apply andb_true_iff.
      split; apply Rleb_true; lra. }
    exists ((1 + 0.2 * INR 0)
            * powerRZ 10 (Int_part (log10 (1 + 5 / 10 ^ 13)))).
    split.
    + apply (ticks_head _ _ 4 _ tl); try lra; [lia|exact Htl].
    + rewrite Hb, H0. lra.
Qed.

(** ** The numeric duplicate check *)

Lemma all_close_combine (tol : R) (a b : list R) :
  length a = length b ->
  (forall i, (i < length a)%nat -> Rabs (nth i a 0 - nth i b 0) <= tol) ->
  all_close tol (combine a b) = true.
Proof.
  revert b. induction a as [|x a IH]; intros [|y b] Hlen H;
    simpl in Hlen; try discriminate; [reflexivity|].
  cbn [combine all_close]. apply andb_true_iff. split.
  - apply Rleb_true. apply (H 0%nat). simpl; lia.
  - apply IH; [lia|]. intros i Hi. apply (H (S i)). simpl; lia.
Qed.

Lemma nearly_identical_complete (tol : R) (a b : list R) :
  elementwise_within tol a b -> nearly_identical a b tol = true.
Proof.
  intros [Hlen H]. unfold nearly_identical.
  apply Nat.eqb_eq in Hlen as E. rewrite E. cbn [negb].
  now apply all_close_combine.
Qed.

Lemma is_dup_complete (xa ya xb yb : list R) :
  xa <> [] -> xb <> [] ->
  elementwise_within tol_default xa xb ->
  elementwise_within tol_default ya yb ->
  is_dup (xa, ya) (xb, yb) = true.
Proof.
  intros Ha Hb Hx Hy. unfold is_dup. cbn [fst snd].
  destruct xa as [|x xa']; [congruence|].
  destruct xb as [|x' xb']; [congruence|].
  rewrite (nearly_identical_complete _ _ _ Hx).
  now rewrite (nearly_identical_complete _ _ _ Hy).
Qed.

Lemma dup_warnings_in (l1 l2 l3 : list (string * series)) (a b : string)
    (sa sb : series) :
  is_dup sa sb = true ->
  In (warn_msg a b)
     (dup_warnings (l1 ++ (a, sa) :: l2 ++ (b, sb) :: l3)).
Proof.
  intros Hd. induction l1 as [|[k v] l1 IH].
  - cbn [app dup_warnings]. apply in_or_app. left.
    apply (in_map (fun e : string * series => warn_msg a (fst e))
                  _ (b, sb)).
    apply filter_In. split; [|exact Hd].
    apply in_or_app. right. now left.
  - cbn [app dup_warnings]. apply in_or_app. now right.
Qed.

Lemma dict_set_fresh (k : string) (v : series) (d : list (string * series)) :
  ~ In k (map fst d) -> dict_set k v d = d ++ [(k, v)].
Proof.
  induction d as [|[k' v'] d IH]; intros Hn; [reflexivity|].
  cbn [dict_set app]. cbn [map fst In] in Hn.
  destruct (String.eqb k k') eqn:E.
  - apply String.eqb_eq in E. subst. tauto.
  - rewrite IH; [reflexivity|tauto].
Qed.

(** ** The composer *)

Lemma jittered_nil (lbl : string) (pct : R) : jittered lbl pct [] = [].
Proof.
  unfold jittered.
  destruct (endswith (lower lbl) "thrash" && negb (Reqb pct 0)); reflexivity.
Qed.

Lemma jittered_zero (lbl : string) (xs : list R) : jittered lbl 0 xs = xs.
Proof.
  unfold jittered. assert (E : Reqb 0 0 = true) by now apply Reqb_true.
  rewrite E. cbn [negb]. now rewrite andb_false_r.
Qed.

Lemma jittered_other (lbl : string) (pct : R) (xs : list R) :
  endswith (lower lbl) "thrash" = false -> jittered lbl pct xs = xs.
Proof. intros H. unfold jittered. now rewrite H. Qed.

Section ComposerFacts.

Variable float_of_str : string -> option R.
Variable int_of_str : string -> option Z.
Variable fmt_signed3 : float -> string.
Variable fmt_2 : R -> string.

Lemma load_series_unrecognized (obj : dict) :
  dict_get "report" obj = None -> dict_get "series" obj = None ->
  dict_get "points" obj = None ->
  load_series float_of_str int_of_str obj = Ok ([], [], [], None).
Proof.
  intros Hr Hs Hp. unfold load_series. cbn [_try_get].
  rewrite Hr, Hs. cbn [is_dict_schema]. rewrite Hp. reflexivity.
Qed.

(** A series without a point leaves everything but [series_data] as it
    was: the loop continues before drawing, fitting and captioning. *)
Lemma overlay_step_empty (show_fit : bool) (pct : R) (st : overlay)
    (sp : spec) (ys : list R) (runs : list Z) (n : option Z) :
  load_series float_of_str int_of_str (source sp) = Ok ([], ys, runs, n) ->
  overlay_step float_of_str int_of_str fmt_signed3 fmt_2 show_fit pct st sp
  = Ok {| series_data := dict_set (label sp) ([], ys) (series_data st);
          drawn := drawn st; fitted := fitted st; labels := labels st;
          caption := caption st |}.
Proof.
  intros H. unfold overlay_step. rewrite H. cbn [bind].
  now rewrite jittered_nil.
Qed.

Lemma overlay_step_inv (show_fit : bool) (pct : R) (st st' : overlay)
    (sp : spec) :
  overlay_step float_of_str int_of_str fmt_signed3 fmt_2 show_fit pct st sp
  = Ok st' ->
  exists xs0 ys runs n,
    load_series float_of_str int_of_str (source sp) = Ok (xs0, ys, runs, n) /\
    series_data st'
    = dict_set (label sp) (jittered (label sp) pct xs0, ys) (series_data st)
    /\
    fitted st'
    = fitted st ++ match jittered (label sp) pct xs0 with
                   | [] => []
                   | _ :: _ => [(label sp, (jittered (label sp) pct xs0, ys))]
                   end.
Proof.
  unfold overlay_step.
  destruct (load_series float_of_str int_of_str (source sp))
    as [[[[xs0 ys] runs] n]|]; cbn [bind]; [|discriminate].
  intros H. exists xs0, ys, runs, n. split; [reflexivity|].
  destruct (jittered (label sp) pct xs0) as [|x xs'].
  - injection H as <-. cbn [series_data fitted]. now rewrite app_nil_r.
  - destruct (ols_log10 (x :: xs') ys) as [f|].
    + destruct show_fit; [destruct (fit_curve f _ _) as [yy|]|];
        cbn [bind] in H; try discriminate; injection H as <-;
        cbn [series_data fitted]; auto.
    + injection H as <-. cbn [series_data fitted]. auto.
Qed.

(** An iteration whose file loads succeeds, unless a fit line is drawn and
    overflows. *)
Lemma overlay_step_ok (show_fit : bool) (pct : R) (st : overlay) (sp : spec)
    (r : loaded) :
  load_series float_of_str int_of_str (source sp) = Ok r ->
  fit_line_in_range float_of_str int_of_str show_fit pct sp ->
  exists st',
    overlay_step float_of_str int_of_str fmt_signed3 fmt_2 show_fit pct st sp
    = Ok st'.
Proof.
  intros H Hfit. unfold fit_line_in_range, loaded_series in Hfit.
  unfold overlay_step. rewrite H in *. cbn [bind].
  destruct r as [[[xs0 ys] runs] n]. cbn [fst snd] in Hfit.
  destruct (jittered (label sp) pct xs0) as [|x xs']; [eexists; reflexivity|].
  destruct (ols_log10 (x :: xs') ys) as [f|] eqn:Ef; [|eexists; reflexivity].
  destruct show_fit; cbn [bind]; [|eexists; reflexivity].
  destruct (Hfit eq_refl x xs' f eq_refl Ef) as [yy ->].
  cbn [bind]. eexists; reflexivity.
Qed.

(** What an iteration raises: the exception of its load, or
    [OverflowError] from the fit line of a file that loads. *)
Lemma overlay_step_raise (show_fit : bool) (pct : R) (st : overlay)
    (sp : spec) (e : exn) :
  overlay_step float_of_str int_of_str fmt_signed3 fmt_2 show_fit pct st sp
  = Raise e ->
  load_series float_of_str int_of_str (source sp) = Raise e \/
  ((exists r, load_series float_of_str int_of_str (source sp) = Ok r) /\
   show_fit = true /\ e = OverflowError).
Proof.
  unfold overlay_step.
  destruct (load_series float_of_str int_of_str (source sp))
    as [[[[xs0 ys] runs] n]|e']; cbn [bind];
    [|intros H; left; congruence].
  intros H. right. split; [eexists; reflexivity|].
  destruct (jittered (label sp) pct xs0) as [|x xs']; [discriminate|].
  destruct (ols_log10 (x :: xs') ys) as [f|]; [|discriminate].
  destruct show_fit; cbn [bind] in H; [|discriminate].
  split; [reflexivity|].
  unfold fit_curve, pow10 in H.
  repeat match type of H with
         | context [Rgtb ?a ?b] => destruct (Rgtb a b); cbn [bind] in H
         end; congruence.
Qed.

(** With distinct labels, the loop stores each loaded series, its xs
    jittered, under its label, in the order of the specs. *)
Lemma overlay_loop_series_data (show_fit : bool) (pct : R)
    (specs : list spec) :
  forall st st',
    overlay_loop float_of_str int_of_str fmt_signed3 fmt_2 show_fit pct
      specs st = Ok st' ->
    NoDup (map fst (series_data st) ++ map label specs) ->
    series_data st'
    = series_data st
      ++ map (fun sp =>
                (label sp,
                 (jittered (label sp) pct
                    (fst (loaded_series float_of_str int_of_str sp)),
                  snd (loaded_series float_of_str int_of_str sp))))
             specs.
Proof.
  induction specs as [|sp rest IH]; intros st st' H Hnd.
  - cbn [overlay_loop] in H. injection H as <-. cbn [map].
    now rewrite app_nil_r.
  - cbn [overlay_loop] in H.
    destruct (overlay_step float_of_str int_of_str fmt_signed3 fmt_2
                show_fit pct st sp) as [st1|] eqn:E; cbn [bind] in H;
      [|discriminate].
    apply overlay_step_inv in E as (xs0 & ys & runs & n & Hl & Hsd & _).
    assert (Hfresh : ~ In (label sp) (map fst (series_data st))).
    { cbn [map] in Hnd. apply NoDup_remove_2 in Hnd.
      intros Hin. apply Hnd. apply in_or_app. now left. }
    rewrite dict_set_fresh in Hsd by assumption.
    apply IH in H.
    + rewrite H, Hsd. cbn [map]. rewrite <- app_assoc. cbn [app].
      assert (El : loaded_series float_of_str int_of_str sp = (xs0, ys))
        by (unfold loaded_series; now rewrite Hl).
      now rewrite El.
    + rewrite Hsd, map_app. cbn [map fst]. rewrite <- app_assoc.
      cbn [app]. cbn [map] in Hnd.
      apply NoDup_remove_1 in Hnd as Hnd1.
      apply NoDup_remove_2 in Hnd as Hnd2.
      apply NoDup_app_remove_l in Hnd1 as Hr.
      clear - Hnd Hnd1 Hnd2.
      apply NoDup_Add with (a := label sp)
                           (l := map fst (series_data st) ++ map label rest).
      * apply Add_app.
      * split; assumption.
Qed.

Lemma overlay_loop_ok (show_fit : bool) (pct : R) (specs : list spec) :
  Forall (fun sp =>
            (exists r,
               load_series float_of_str int_of_str (source sp) = Ok r) /\
            fit_line_in_range float_of_str int_of_str show_fit pct sp)
         specs ->
  forall st, exists st',
    overlay_loop float_of_str int_of_str fmt_signed3 fmt_2 show_fit pct
      specs st = Ok st'.
Proof.
  induction 1 as [|sp rest [[r Hr] Hfit] _ IH]; intros st.
  - now exists st.
  - cbn [overlay_loop].
    destruct (overlay_step_ok show_fit pct st sp r Hr Hfit) as [st1 ->].
    cbn [bind]. apply IH.
Qed.

(** Without fit lines the loop succeeds as soon as every file loads. *)
Lemma overlay_loop_ok_no_fit (pct : R) (specs : list spec) :
  Forall (fun sp => exists r,
            load_series float_of_str int_of_str (source sp) = Ok r) specs ->
  forall st, exists st',
    overlay_loop float_of_str int_of_str fmt_signed3 fmt_2 false pct
      specs st = Ok st'.
Proof.
  intros H. apply overlay_loop_ok.
  apply Forall_impl with (2 := H). intros sp Hsp.
  split; [exact Hsp|]. intros Hf. discriminate.
Qed.

Lemma overlay_loop_fitted (show_fit : bool) (pct : R) (specs : list spec) :
  forall st st',
    overlay_loop float_of_str int_of_str fmt_signed3 fmt_2 show_fit pct
      specs st = Ok st' ->
    fitted st'
    = fitted st
      ++ fitter_calls (loaded_series float_of_str int_of_str) pct specs.
Proof.
  induction specs as [|sp rest IH]; intros st st' H.
  - cbn [overlay_loop] in H. injection H as <-.
    unfold fitter_calls. cbn [flat_map]. now rewrite app_nil_r.
  - cbn [overlay_loop] in H.
    destruct (overlay_step float_of_str int_of_str fmt_signed3 fmt_2
                show_fit pct st sp) as [st1|] eqn:E; cbn [bind] in H;
      [|discriminate].
    apply overlay_step_inv in E as (xs0 & ys & runs & n & Hl & _ & Hf).
    apply IH in H. rewrite H, Hf. unfold fitter_calls. cbn [flat_map].
    rewrite <- app_assoc. f_equal. f_equal.
    unfold loaded_series. rewrite Hl. cbn [fst snd].
    destruct (jittered (label sp) pct xs0); reflexivity.
Qed.

End ComposerFacts.

Lemma build_specs_labels_NoDup (d : dict) (t s : option dict) :
  NoDup (map label (build_specs d t s)).
Proof.
  destruct t, s; cbn [build_specs app map label];
    repeat (constructor; [cbn [In]; intuition discriminate|]);
    constructor.
Qed.

(** The fit of [(f x, g x)] when [log10 (g x) = c + a * log10 (f x)]. *)
Lemma ols_log10_mapped (f g : R -> R) (xs : list R) (c a : R) :
  (forall x, In x xs -> 0 < f x /\ 0 < g x) ->
  (3 <= length xs)%nat ->
  (exists x x', In x xs /\ In x' xs /\ f x <> f x') ->
  (forall x, In x xs -> log10 (g x) = c + a * log10 (f x)) ->
  exists fit, ols_log10 (map f xs) (map g xs) = Some fit /\
              fit_m fit = a /\ fit_b fit = c.
Proof.
  intros Hpos Hlen (x & x' & Hx & Hx' & Hne) Hline.
  assert (Hpts : positive_points (map f xs) (map g xs)
                 = map (fun x => (f x, g x)) xs).
  { unfold positive_points. clear - Hpos.
    induction xs as [|y l IH]; [reflexivity|].
    cbn [map combine filter fst snd].
    destruct (Hpos y) as [Hf Hg]; auto with datatypes.
    apply Rgtb_true in Hf, Hg. rewrite Hf, Hg. cbn [andb].
    rewrite IH; [reflexivity|]. intros z Hz. apply Hpos.
    auto with datatypes. }
  destruct (ols_log10_on_line (map f xs) (map g xs) c a)
    as (fit & Hfit & Hm & Hb & _).
  - now rewrite Hpts, length_map.
  - rewrite Hpts. intros Hs. apply Hne.
    apply (Hs (f x, g x) (f x', g x'));
      apply (in_map (fun x => (f x, g x))); assumption.
  - rewrite Hpts. intros p Hp. apply in_map_iff in Hp as [y [<- Hy]].
    cbn [fst snd]. now apply Hline.
  - exists fit. auto.
Qed.

(** C5, as the code has it: for a record with neither a "report"/"series"
    key nor a "points" key the loop stores the empty series and continues:
    it draws nothing, calls the fitter for nothing, and adds no legend entry
    and no caption line. *)
Theorem overlay_step_unrecognized_schema
    (fs : string -> option R) (is_ : string -> option Z)
    (f3 : float -> string) (f2 : R -> string)
    (show_fit : bool) (pct : R) (st : overlay) (sp : spec) :
  dict_get "report" (source sp) = None ->
  dict_get "series" (source sp) = None ->
  dict_get "points" (source sp) = None ->
  overlay_step fs is_ f3 f2 show_fit pct st sp
  = Ok {| series_data := dict_set (label sp) ([], []) (series_data st);
          drawn := drawn st; fitted := fitted st; labels := labels st;
          caption := caption st |}.
Proof.
  intros Hr Hs Hp. apply overlay_step_empty with (runs := []) (n := None).
  now apply load_series_unrecognized.
Qed.

Lemma overlay_step_unrecognized_schema_example :
  overlay_step no_float_str no_int_str no_fmt3 no_fmt2 true 0 overlay0
    {| label := "LF-default"; source := []; color := "#2563eb";
       marker := "o"; lstyle := "-" |}
  = Ok {| series_data := [("LF-default"%string, ([], []))];
          drawn := []; fitted := []; labels := []; caption := [] |}.
Proof.
  exact (overlay_step_unrecognized_schema no_float_str no_int_str no_fmt3
           no_fmt2 true 0 overlay0
           {| label := "LF-default"; source := []; color := "#2563eb";
              marker := "o"; lstyle := "-" |} eq_refl eq_refl eq_refl).
Defined.

Lemma make_overlay_unrecognized (fs : string -> option R)
    (is_ : string -> option Z) (f3 : float -> string) (f2 : R -> string)
    (show_fit : bool) (pct : R) :
  make_overlay fs is_ f3 f2 [] None None show_fit pct
  = Ok ({| series_data := [("LF-default"%string, ([], []))];
           drawn := []; fitted := []; labels := []; caption := [] |}, []).
Proof.
  unfold make_overlay. cbn [build_specs app overlay_loop].
  rewrite (overlay_step_empty fs is_ f3 f2 show_fit pct overlay0 _ [] []
             None) by reflexivity.
  reflexivity.
Qed.

(** C5 as stated fails: for the record [{}] as the only input the run
    succeeds with an empty caption, so the caption has no
    "LF-default: fit n/a" line. *)
Lemma make_overlay_unrecognized_no_caption_line :
  (forall fs is_ f3 f2 show_fit pct,
     exists st w,
       make_overlay fs is_ f3 f2 [] None None show_fit pct = Ok (st, w) /\
       caption st = [] /\ drawn st = [] /\ fitted st = []) /\
  ~ (exists fs is_ f3 f2 show_fit pct st w,
       make_overlay fs is_ f3 f2 [] None None show_fit pct = Ok (st, w) /\
       In (na_line "LF-default") (caption st)).
Proof.
  split.
  - intros. eexists. eexists. rewrite make_overlay_unrecognized.
    repeat split.
  - intros (fs & is_ & f3 & f2 & sf & pct & st & w & H & Hin).
    rewrite make_overlay_unrecognized in H. injection H as <- _.
    exact Hin.
Qed.

(** C7, as the code has it: for two specs of a run whose loaded series
    are both non-empty and agree element by element within 1e-12 in x and
    in y, the warning for that pair is printed, whatever schema each was
    read from.  The pairs covered are those whose xs the loop stores as
    loaded: any pair when the jitter is 0, and the pairs without the thrash
    series for any jitter. *)
Theorem make_overlay_reports_identical_series
    (fs : string -> option R) (is_ : string -> option Z)
    (f3 : float -> string) (f2 : R -> string)
    (d : dict) (t s : option dict) (show_fit : bool) (pct : R)
    (st : overlay) (w : list string)
    (l1 l2 l3 : list spec) (sa sb : spec)
    (xa ya xb yb : list R) (ra rb : list Z) (na nb : option Z) :
  make_overlay fs is_ f3 f2 d t s show_fit pct = Ok (st, w) ->
  build_specs d t s = l1 ++ sa :: l2 ++ sb :: l3 ->
  load_series fs is_ (source sa) = Ok (xa, ya, ra, na) ->
  load_series fs is_ (source sb) = Ok (xb, yb, rb, nb) ->
  xa <> [] -> xb <> [] ->
  pct = 0 \/ (endswith (lower (label sa)) "thrash" = false /\
              endswith (lower (label sb)) "thrash" = false) ->
  elementwise_within tol_default xa xb ->
  elementwise_within tol_default ya yb ->
  In (warn_msg (label sa) (label sb)) w.
Proof.
  intros H Hspecs Ha Hb Hxa Hxb Hj Hx Hy. unfold make_overlay in H.
  destruct (overlay_loop fs is_ f3 f2 show_fit pct (build_specs d t s)
              overlay0) as [st'|] eqn:E; cbn [bind] in H; [|discriminate].
  injection H as <- <-.
  apply overlay_loop_series_data in E.
  2:{ cbn [overlay0 series_data map app]. apply build_specs_labels_NoDup. }
  rewrite E, Hspecs. cbn [overlay0 series_data app].
  rewrite map_app. cbn [map]. rewrite map_app. cbn [map].
  apply dup_warnings_in.
  unfold loaded_series. rewrite Ha, Hb. cbn [fst snd].
  assert (Ej : jittered (label sa) pct xa = xa /\
               jittered (label sb) pct xb = xb).
  { destruct Hj as [->|[Hta Htb]].
    - now rewrite !jittered_zero.
    - now rewrite !jittered_other. }
  destruct Ej as [-> ->].
  now apply is_dup_complete.
Qed.

Lemma load_series_single_point (fs : string -> option R)
    (is_ : string -> option Z) :
  load_series fs is_ [("points"%string, JList [JList [JInt 1; JInt 1]])]
  = Ok ([1], [1], [0%Z], Some 1%Z).
Proof. unfold load_series. cbn -[Rgtb]. Rcmp. cbn. reflexivity. Qed.

Lemma elementwise_within_refl (tol : R) (l : list R) :
  0 <= tol -> elementwise_within tol l l.
Proof.
  intros Ht. split; [reflexivity|]. intros i _.
  replace (nth i l 0 - nth i l 0) with 0 by ring. now rewrite Rabs_R0.
Qed.

Lemma tol_default_nonneg : 0 <= tol_default.
Proof. unfold tol_default. lra. Qed.

Lemma make_overlay_reports_identical_series_example :
  exists st w,
    make_overlay no_float_str no_int_str no_fmt3 no_fmt2
      [("points"%string, JList [JList [JInt 1; JInt 1]])]
      None (Some [("points"%string, JList [JList [JInt 1; JInt 1]])])
      false 900 = Ok (st, w) /\
    In (warn_msg "LF-default" "LF-scramble") w.
Proof.
  pose proof (load_series_single_point no_float_str no_int_str) as Hl.
  destruct (overlay_loop_ok_no_fit no_float_str no_int_str no_fmt3 no_fmt2
              900
              (build_specs
                 [("points"%string, JList [JList [JInt 1; JInt 1]])]
                 None
                 (Some [("points"%string, JList [JList [JInt 1; JInt 1]])])))
    with (st := overlay0) as [st Hst].
  { cbn [build_specs app].
    repeat (constructor; [eexists; cbn [source]; exact Hl|]).
    constructor. }
  exists st, (dup_warnings (series_data st)).
  assert (Hm : make_overlay no_float_str no_int_str no_fmt3 no_fmt2
                 [("points"%string, JList [JList [JInt 1; JInt 1]])]
                 None
                 (Some [("points"%string, JList [JList [JInt 1; JInt 1]])])
                 false 900 = Ok (st, dup_warnings (series_data st))).
  { unfold make_overlay. rewrite Hst. reflexivity. }
  split; [exact Hm|].
  apply (make_overlay_reports_identical_series _ _ _ _ _ _ _ _ _ _ _
           [] [] [] _ _ [1] [1] [1] [1] [0%Z] [0%Z] (Some 1%Z) (Some 1%Z)
           Hm eq_refl Hl Hl).
  - discriminate.
  - discriminate.
  - right. split; reflexivity.
  - apply elementwise_within_refl, tol_default_nonneg.
  - apply elementwise_within_refl, tol_default_nonneg.
Defined.

Lemma make_overlay_two_unrecognized (fs : string -> option R)
    (is_ : string -> option Z) (f3 : float -> string) (f2 : R -> string)
    (show_fit : bool) (pct : R) :
  make_overlay fs is_ f3 f2 [] (Some []) None show_fit pct
  = Ok ({| series_data := [("LF-default"%string, ([], []));
                           ("LF-thrash"%string, ([], []))];
           drawn := []; fitted := []; labels := []; caption := [] |}, []).
Proof.
  unfold make_overlay. cbn [build_specs app overlay_loop].
  rewrite (overlay_step_empty fs is_ f3 f2 show_fit pct overlay0 _ [] []
             None) by reflexivity.
  cbn [bind].
  rewrite (overlay_step_empty fs is_ f3 f2 show_fit pct _ _ [] [] None)
    by reflexivity.
  reflexivity.
Qed.

(** C7 as stated fails for two series without a point: their x and y
    sequences have equal length and agree vacuously, yet the check requires
    both to be non-empty and prints nothing. *)
Lemma make_overlay_empty_pair_not_reported :
  (elementwise_within tol_default [] [] /\
   forall fs is_, load_series fs is_ [] = Ok ([], [], [], None)) /\
  ~ (exists fs is_ f3 f2 show_fit st w,
       make_overlay fs is_ f3 f2 [] (Some []) None show_fit 0 = Ok (st, w) /\
       In (warn_msg "LF-default" "LF-thrash") w).
Proof.
  split.
  - split; [apply elementwise_within_refl, tol_default_nonneg|].
    intros fs is_. reflexivity.
  - intros (fs & is_ & f3 & f2 & sf & st & w & H & Hin).
    rewrite make_overlay_two_unrecognized in H. injection H as _ <-.
    exact Hin.
Qed.

(** ** Jitter *)

Lemma jittered_thrash (lbl : string) (pct : R) (xs : list R) :
  endswith (lower lbl) "thrash" = true -> pct <> 0 ->
  jittered lbl pct xs = map (fun x => x * (1 + pct / 100)) xs.
Proof.
  intros H Hp. unfold jittered. apply Reqb_false in Hp.
  now rewrite H, Hp.
Qed.

Lemma load_series_pow10_points (fs : string -> option R)
    (is_ : string -> option Z) :
  load_series fs is_ pow10_points
  = Ok ([1; 10; 100], [1; 10; 100], [0%Z; 0%Z; 0%Z], Some 3%Z).
Proof.
  unfold load_series, pow10_points. cbn -[Rgtb]. Rcmp.
  repeat (progress (cbn -[Rlt_dec]; Rcmp)). reflexivity.
Qed.

Lemma log10_10 : log10 10 = 1.
Proof. unfold log10. pose proof ln_10_pos. field. lra. Qed.

(** Scaling every x by [k > 0] keeps the slope of the identity series and
    moves the intercept by [- log10 k]. *)
Lemma ols_log10_scaled_identity (k : R) (xs : list R) :
  0 < k -> (forall x, In x xs -> 0 < x) -> (3 <= length xs)%nat ->
  (exists x x', In x xs /\ In x' xs /\ x <> x') ->
  exists fit, ols_log10 (map (fun x => x * k) xs) xs = Some fit /\
              fit_m fit = 1 /\ fit_b fit = - log10 k.
Proof.
  intros Hk Hpos Hlen (x & x' & Hx & Hx' & Hne).
  destruct (ols_log10_mapped (fun x => x * k) (fun x => x) xs
              (- log10 k) 1) as (fit & Hfit & Hm & Hb).
  - intros y Hy. pose proof (Hpos y Hy). split; [|assumption].
    now apply Rmult_lt_0_compat.
  - assumption.
  - exists x, x'. repeat split; trivial. intros H. apply Hne.
    apply (Rmult_eq_reg_r k); lra.
  - intros y Hy. rewrite log10_mult by auto. ring.
  - rewrite map_id in Hfit. now exists fit.
Qed.

(** ** The range of the fit line *)

Lemma float_max_ge : 10 ^ 4 <= float_max.
Proof.
  unfold float_max. replace (10 ^ 4) with (IZR 10000) by (simpl; lra).
  apply IZR_le. vm_compute. discriminate.
Qed.

Lemma pow10_ok (e : R) : e <= 4 -> pow10 e = Ok (Rpower 10 e).
Proof.
  intros He. unfold pow10.
  assert (H : Rgtb (Rpower 10 e) float_max = false).
  { apply Rgtb_false.
    apply Rle_trans with (Rpower 10 4); [apply Rle_Rpower; lra|].
    replace 4 with (INR 4) by (simpl; lra).
    rewrite Rpower_pow by lra. apply float_max_ge. }
  now rewrite H.
Qed.

Lemma fit_curve_ok (f : FitResult) (x0 x1 : R) :
  fit_m f * log10 x0 + fit_b f <= 4 ->
  fit_m f * log10 x1 + fit_b f <= 4 ->
  exists yy, fit_curve f x0 x1 = Ok yy.
Proof.
  intros H0 H1. unfold fit_curve.
  rewrite (pow10_ok _ H0), (pow10_ok _ H1). cbn [bind].
  eexists; reflexivity.
Qed.

Lemma list_min_in (x : R) (l : list R) : In (list_min x l) (x :: l).
Proof.
  unfold list_min. revert x. induction l as [|a l IH]; intros x.
  - now left.
  - cbn [fold_left]. destruct (IH (Rmin x a)) as [E|Hin].
    + unfold Rmin in E at 1. destruct (Rle_dec x a);
        [left|right; left]; exact E.
    + right. now right.
Qed.

Lemma list_max_in (x : R) (l : list R) : In (list_max x l) (x :: l).
Proof.
  unfold list_max. revert x. induction l as [|a l IH]; intros x.
  - now left.
  - cbn [fold_left]. destruct (IH (Rmax x a)) as [E|Hin].
    + unfold Rmax in E at 1. destruct (Rle_dec x a);
        [right; left|left]; exact E.
    + right. now right.
Qed.

Lemma log10_le (x y : R) : 0 < x -> x <= y -> log10 x <= log10 y.
Proof.
  intros Hx Hxy. unfold log10. pose proof ln_10_pos as H10.
  apply Rmult_le_compat_r; [left; now apply Rinv_0_lt_compat|].
  destruct Hxy as [Hlt| ->]; [left; now apply ln_increasing|lra].
Qed.

Lemma log10_1000 : log10 1000 = 3.
Proof.
  replace 1000 with (10 * (10 * 10)) by lra.
  rewrite !log10_mult by lra. rewrite log10_10. lra.
Qed.

(** The fit line of the series [(1, 1), (10, 10), (100, 100)], jittered by
    900 percent or not at all, stays in range. *)
Lemma fit_line_in_range_pow10 (fs : string -> option R)
    (is_ : string -> option Z) (show_fit : bool) (pct : R) (sp : spec) :
  source sp = pow10_points -> pct = 0 \/ pct = 900 ->
  fit_line_in_range fs is_ show_fit pct sp.
Proof.
  intros Hs Hp _ x xs' f Hj Hf.
  unfold loaded_series in Hj, Hf.
  rewrite Hs, load_series_pow10_points in Hj, Hf. cbn [fst snd] in Hj, Hf.
  assert (Hpos : forall x, In x [1; 10; 100] -> 0 < x).
  { cbn [In]. intros y [<-|[<-|[<-|[]]]]; lra. }
  assert (Hd : exists x x', In x [1; 10; 100] /\ In x' [1; 10; 100]
                            /\ x <> x').
  { exists 1, 10. cbn [In]. repeat split; auto; lra. }
  assert (Hcases :
            (x :: xs' = [1; 10; 100] /\ fit_m f = 1 /\ fit_b f = 0) \/
            (x :: xs' = [10; 100; 1000] /\ fit_m f = 1 /\ fit_b f = -1)).
  { assert (Hid : jittered (label sp) pct [1; 10; 100] = [1; 10; 100] ->
                  x :: xs' = [1; 10; 100] /\ fit_m f = 1 /\ fit_b f = 0).
    { intros E. rewrite E in Hj. split; [now symmetry|].
      destruct (ols_log10_mapped (fun x => x) (fun x => x) [1; 10; 100] 0 1)
        as (f0 & Hf0 & Hm0 & Hb0).
      - intros y Hy. split; now apply Hpos.
      - cbn [length]. lia.
      - exact Hd.
      - intros y _. ring.
      - rewrite <- Hj in Hf. rewrite map_id, Hf in Hf0.
        injection Hf0 as <-. auto. }
    destruct Hp as [->| ->]; [left; apply Hid, jittered_zero|].
    destruct (endswith (lower (label sp)) "thrash") eqn:Et;
      [|left; now apply Hid, jittered_other].
    right. rewrite jittered_thrash in Hj by (assumption || lra).
    destruct (ols_log10_scaled_identity (1 + 900 / 100) [1; 10; 100])
      as (f1 & Hf1 & Hm1 & Hb1); [lra|exact Hpos|cbn [length]; lia|exact Hd|].
    rewrite <- Hj in Hf. rewrite Hf in Hf1. injection Hf1 as <-.
    split; [|split; [exact Hm1|]].
    - rewrite <- Hj. cbn [map]. repeat f_equal; lra.
    - rewrite Hb1. replace (1 + 900 / 100) with 10 by lra.
      now rewrite log10_10. }
  pose proof (list_min_in x xs') as Hmin.
  pose proof (list_max_in x xs') as Hmax.
  pose proof log10_1000 as H1000.
  assert (Hb : forall y, In y (x :: xs') ->
                         fit_m f * log10 y + fit_b f <= 4).
  { intros y Hy.
    assert (Hy' : 0 < y <= 1000).
    { destruct Hcases as [(E & _)|(E & _)]; rewrite E in Hy; cbn [In] in Hy;
        destruct Hy as [<-|[<-|[<-|[]]]]; lra. }
    pose proof (log10_le y 1000 (proj1 Hy') (proj2 Hy')) as Hl.
    destruct Hcases as [(_ & -> & ->)|(_ & -> & ->)]; lra. }
  apply fit_curve_ok; apply Hb; assumption.
Qed.

(** ** A fit line that overflows *)

Lemma load_series_steep_points (fs : string -> option R)
    (is_ : string -> option Z) (y : R) :
  0 < y ->
  load_series fs is_ (steep_points y)
  = Ok ([1; 10; 100], [y; y; 1], [0%Z; 0%Z; 0%Z], Some 3%Z).
Proof.
  intros Hy. unfold load_series, steep_points. cbn -[Rgtb]. Rcmp.
  repeat (progress (cbn -[Rlt_dec]; Rcmp)). reflexivity.
Qed.

Lemma log10_1 : log10 1 = 0.
Proof. unfold log10. rewrite ln_1. lra. Qed.

Lemma log10_100 : log10 100 = 2.
Proof.
  replace 100 with (10 * 10) by lra.
  rewrite log10_mult by lra. rewrite log10_10. lra.
Qed.

(** The fit of (1, y), (10, y), (100, 1) for y = 10^300: the slope is -150
    and the intercept 350. *)
Lemma ols_log10_steep (y : R) :
  0 < y -> log10 y = 300 ->
  exists f, ols_log10 [1; 10; 100] [y; y; 1] = Some f /\
            fit_m f = -150 /\ fit_b f = 350.
Proof.
  intros Hy Hl.
  assert (Hpts : positive_points [1; 10; 100] [y; y; 1]
                 = [(1, y); (10, y); (100, 1)]).
  { unfold positive_points. cbn [combine filter fst snd]. Rcmp.
    cbn [andb]. Rcmp. cbn [andb]. Rcmp. reflexivity. }
  assert (Hlx : log_xs [1; 10; 100] [y; y; 1] = [0; 1; 2]).
  { unfold log_xs. rewrite Hpts. cbn [map fst].
    now rewrite log10_1, log10_10, log10_100. }
  assert (Hly : log_ys [1; 10; 100] [y; y; 1] = [300; 300; 0]).
  { unfold log_ys. rewrite Hpts. cbn [map snd]. now rewrite Hl, log10_1. }
  destruct (ols_log10 [1; 10; 100] [y; y; 1]) as [f|] eqn:E.
  - exists f. split; [reflexivity|].
    apply ols_log10_some_inv in E. cbv zeta in E.
    destruct E as (_ & _ & Hm & Hb & _). rewrite Hlx, Hly in Hm, Hb.
    assert (Hmx : mean [0; 1; 2] = 1).
    { unfold mean, sum. cbn [fold_left length INR]. lra. }
    assert (Hmy : mean [300; 300; 0] = 200).
    { unfold mean, sum. cbn [fold_left length INR]. lra. }
    assert (Hsxx : Sxx [0; 1; 2] = 2).
    { unfold Sxx. rewrite Hmx. unfold sum. cbn [map fold_left]. lra. }
    assert (Hsxy : Sxy [0; 1; 2] [300; 300; 0] = -300).
    { unfold Sxy. rewrite Hmx, Hmy. unfold sum.
      cbn [combine map fold_left fst snd]. lra. }
    rewrite Hsxy, Hsxx in Hm. rewrite Hmx, Hmy in Hb.
    assert (Hm' : fit_m f = -150) by lra.
    split; [exact Hm'|]. rewrite Hm' in Hb. lra.
  - apply ols_log10_none_iff in E. rewrite Hpts in E.
    destruct E as [E|E]; [cbn [length] in E; lia|].
    specialize (E (1, y) (10, y)). cbn [In fst] in E.
    assert (1 = 10) by (apply E; auto). lra.
Qed.

Lemma pow10_overflows (e : R) : 350 <= e -> pow10 e = Raise OverflowError.
Proof.
  intros He. unfold pow10.
  assert (H : Rgtb (Rpower 10 e) float_max = true).
  { apply Rgtb_true.
    apply Rlt_le_trans with (Rpower 10 350); [|apply Rle_Rpower; lra].
    replace 350 with (INR 350) by (rewrite INR_IZR_INZ; reflexivity).
    rewrite Rpower_pow by lra. rewrite pow_IZR.
    unfold float_max. apply IZR_lt. vm_compute. reflexivity. }
  now rewrite H.
Qed.

(** The overflow of the fit line occurs: the file
    [{"points": [[1, 1e300], [10, 1e300], [100, 1]]}] loads, its fit line
    starts at 10^350, and with [show_fit] the run raises
    [OverflowError]; without it the run succeeds. *)
Lemma make_overlay_fit_line_overflows (fs : string -> option R)
    (is_ : string -> option Z) (f3 : float -> string) (f2 : R -> string)
    (pct : R) :
  let y := Rpower 10 300 in
  load_series fs is_ (steep_points y)
  = Ok ([1; 10; 100], [y; y; 1], [0%Z; 0%Z; 0%Z], Some 3%Z) /\
  make_overlay fs is_ f3 f2 (steep_points y) None None true pct
  = Raise OverflowError /\
  exists st w,
    make_overlay fs is_ f3 f2 (steep_points y) None None false pct
    = Ok (st, w).
Proof.
  intros y.
  assert (Hy : 0 < y) by (unfold y, Rpower; apply exp_pos).
  assert (Hl : log10 y = 300).
  { unfold y. rewrite log10_Rpower, log10_10. lra. }
  pose proof (load_series_steep_points fs is_ y Hy) as Hload.
  destruct (ols_log10_steep y Hy Hl) as (f & Hf & Hm & Hb).
  clearbody y.
  split; [exact Hload|]. split.
  - unfold make_overlay. cbn [build_specs app overlay_loop].
    unfold overlay_step. cbn [source label]. rewrite Hload. cbn [bind].
    rewrite (jittered_other "LF-default") by reflexivity.
    rewrite Hf. unfold fit_curve.
    rewrite (pow10_overflows (fit_m f * log10 (list_min 1 [10; 100])
                              + fit_b f)).
    + reflexivity.
    + unfold list_min. cbn [fold_left].
      rewrite (Rmin_left 1 10) by lra. rewrite (Rmin_left 1 100) by lra.
      rewrite Hm, Hb, log10_1. lra.
  - destruct (overlay_loop_ok_no_fit fs is_ f3 f2 pct
                (build_specs (steep_points y) None None))
      with (st := overlay0) as [st Hst].
    { cbn [build_specs app].
      repeat (constructor; [eexists; cbn [source]; exact Hload|]).
      constructor. }
    exists st, (dup_warnings (series_data st)).
    unfold make_overlay. now rewrite Hst.
Qed.

(** ** The jitter reaches the fitter *)

(** C1 at the thrash file [{"points": [[1, 1], [10, 10], [100, 100]]}]
    (also given as the default file) with a jitter of 900 percent: the
    fitter is called on the jittered xs [10, 100, 1000], not on the loaded
    [1, 10, 100], and the intercept of the fit moves from 0 to -1. *)
Theorem make_overlay_jitter_reaches_fitter
    (fs : string -> option R) (is_ : string -> option Z)
    (f3 : float -> string) (f2 : R -> string) (show_fit : bool) :
  let xs := [1; 10; 100] in
  let xs' := map (fun x => x * (1 + 900 / 100)) xs in
  exists st0 w0 st1 w1 f0 f1,
    make_overlay fs is_ f3 f2 pow10_points (Some pow10_points) None
      show_fit 0 = Ok (st0, w0) /\
    make_overlay fs is_ f3 f2 pow10_points (Some pow10_points) None
      show_fit 900 = Ok (st1, w1) /\
    fitted st0 = [("LF-default"%string, (xs, xs));
                  ("LF-thrash"%string, (xs, xs))] /\
    fitted st1 = [("LF-default"%string, (xs, xs));
                  ("LF-thrash"%string, (xs', xs))] /\
    xs' <> xs /\
    ols_log10 xs xs = Some f0 /\ ols_log10 xs' xs = Some f1 /\
    fit_m f0 = 1 /\ fit_m f1 = 1 /\
    fit_b f0 = 0 /\ fit_b f1 = -1 /\ fit_b f0 <> fit_b f1.
Proof.
  cbv zeta.
  pose proof (load_series_pow10_points fs is_) as Hl.
  assert (Hall : forall pct, pct = 0 \/ pct = 900 ->
            Forall (fun sp =>
                      (exists r, load_series fs is_ (source sp) = Ok r) /\
                      fit_line_in_range fs is_ show_fit pct sp)
                   (build_specs pow10_points (Some pow10_points) None)).
  { intros pct Hpct. cbn [build_specs app].
    repeat (constructor;
            [split; [eexists; cbn [source]; exact Hl
                    |now apply fit_line_in_range_pow10]|]).
    constructor. }
  destruct (overlay_loop_ok fs is_ f3 f2 show_fit 0 _
              (Hall 0 (or_introl eq_refl)) overlay0) as [st0 H0].
  destruct (overlay_loop_ok fs is_ f3 f2 show_fit 900 _
              (Hall 900 (or_intror eq_refl)) overlay0) as [st1 H1].
  assert (Hpos : forall x, In x [1; 10; 100] -> 0 < x).
  { cbn [In]. intros x [<-|[<-|[<-|[]]]]; lra. }
  assert (Hd : exists x x', In x [1; 10; 100] /\ In x' [1; 10; 100]
                            /\ x <> x').
  { exists 1, 10. cbn [In]. repeat split; auto; lra. }
  destruct (ols_log10_mapped (fun x => x) (fun x => x) [1; 10; 100] 0 1)
    as (f0 & Hf0 & Hm0 & Hb0).
  { intros x Hx. split; now apply Hpos. }
  { cbn [length]. lia. }
  { exact Hd. }
  { intros x _. ring. }
  rewrite map_id in Hf0.
  destruct (ols_log10_scaled_identity (1 + 900 / 100) [1; 10; 100])
    as (f1 & Hf1 & Hm1 & Hb1); [lra|exact Hpos|cbn [length]; lia|exact Hd|].
  assert (Hk : log10 (1 + 900 / 100) = 1).
  { replace (1 + 900 / 100) with 10 by lra. apply log10_10. }
  rewrite Hk in Hb1.
  exists st0, (dup_warnings (series_data st0)),
         st1, (dup_warnings (series_data st1)), f0, f1.
  split; [unfold make_overlay; now rewrite H0|].
  split; [unfold make_overlay; now rewrite H1|].
  apply overlay_loop_fitted in H0, H1.
  unfold fitter_calls, loaded_series in H0, H1.
  cbn [build_specs app flat_map label source overlay0 fitted] in H0, H1.
  rewrite Hl in H0, H1. cbn [fst snd] in H0, H1.
  rewrite !jittered_zero in H0.
  rewrite (jittered_other "LF-default") in H1 by reflexivity.
  rewrite (jittered_thrash "LF-thrash") in H1 by (reflexivity || lra).
  split; [exact H0|]. split; [exact H1|].
  split.
  { cbn [map]. intros E. injection E as E _. lra. }
  repeat split; trivial; lra.
Qed.

(** * Further properties of the loader *)

Lemma combine_snoc {A B : Type} (l1 : list A) (l2 : list B) (a : A) (b : B) :
  length l1 = length l2 ->
  combine (l1 ++ [a]) (l2 ++ [b]) = combine l1 l2 ++ [(a, b)].
Proof.
  revert l2. induction l1 as [|x l1 IH]; intros [|y l2] H; simpl in H;
    try discriminate; [reflexivity|].
  cbn [app combine]. rewrite IH by lia. reflexivity.
Qed.

Lemma zip3_snoc (xs ys : list R) (runs : list Z) (x y : R) (r : Z) :
  length ys = length xs -> length runs = length xs ->
  zip3 (xs ++ [x]) (ys ++ [y]) (runs ++ [r])
  = zip3 xs ys runs ++ [(x, y, r)].
Proof.
  intros Hy Hr. unfold zip3.
  rewrite (combine_snoc xs ys) by lia.
  apply combine_snoc. rewrite length_combine. lia.
Qed.

Lemma zip3_unzip (z : list row) :
  zip3 (map (fun t : row => fst (fst t)) z)
       (map (fun t : row => snd (fst t)) z)
       (map (fun t : row => snd t) z) = z.
Proof.
  unfold zip3. induction z as [|[[x y] r] z IH]; [reflexivity|].
  cbn [map combine fst snd]. now rewrite IH.
Qed.

Lemma insert_row_perm (t : row) (l : list row) :
  Permutation (insert_row t l) (t :: l).
Proof.
  induction l as [|h tl IH]; cbn [insert_row]; [reflexivity|].
  destruct (Rlt_dec (key t) (key h)); [reflexivity|].
  rewrite IH. apply perm_swap.
Qed.

Lemma sorted_perm (l : list row) : Permutation (sorted l) l.
Proof.
  unfold sorted.
  assert (H : forall acc,
             Permutation (fold_left (fun acc t => insert_row t acc) l acc)
                         (acc ++ l)).
  { induction l as [|t l IH]; intros acc; cbn [fold_left].
    - now rewrite app_nil_r.
    - rewrite IH, insert_row_perm. cbn [app]. apply Permutation_middle. }
  apply (H []).
Qed.

Lemma insert_row_sorted (t : row) (l : list row) :
  StronglySorted (fun a b => key a <= key b) l ->
  StronglySorted (fun a b => key a <= key b) (insert_row t l).
Proof.
  induction 1 as [|h tl Hs IH Hh]; cbn [insert_row].
  - constructor; constructor.
  - destruct (Rlt_dec (key t) (key h)) as [Hlt|Hge].
    + constructor; [constructor; assumption|].
      constructor; [lra|].
      rewrite Forall_forall in *. intros u Hu. specialize (Hh u Hu). lra.
    + constructor; [assumption|].
      rewrite Forall_forall in *. intros u Hu.
      apply (Permutation_in _ (insert_row_perm t tl)) in Hu.
      destruct Hu as [<-|Hu]; [lra|auto].
Qed.

Lemma sorted_sorted (l : list row) :
  StronglySorted (fun a b => key a <= key b) (sorted l).
Proof.
  unfold sorted.
  assert (H : forall acc,
             StronglySorted (fun a b => key a <= key b) acc ->
             StronglySorted (fun a b => key a <= key b)
               (fold_left (fun acc t => insert_row t acc) l acc)).
  { induction l as [|t l IH]; intros acc Hacc; cbn [fold_left]; trivial.
    apply IH. now apply insert_row_sorted. }
  apply H. constructor.
Qed.

Lemma StronglySorted_map_key (l : list row) :
  StronglySorted (fun a b => key a <= key b) l ->
  ascending (map (fun t : row => fst (fst t)) l).
Proof.
  unfold ascending. induction 1 as [|h tl Hs IH Hh]; cbn [map].
  - constructor.
  - constructor; [assumption|].
    rewrite Forall_forall in *. intros x Hx.
    apply in_map_iff in Hx as [u [<- Hu]]. apply (Hh u Hu).
Qed.

Section LoaderRows.

Variable fs : string -> option R.
Variable is_ : string -> option Z.

Lemma item_row_cons (it : json) (items : list json) (t : row) :
  item_row fs is_ items t -> item_row fs is_ (it :: items) t.
Proof.
  intros (d & Hin & H). exists d. split; [now right|exact H].
Qed.

Lemma point_row_cons (e : json) (pts : list json) (t : row) :
  point_row fs pts t -> point_row fs (e :: pts) t.
Proof.
  intros (p0 & p1 & rest & Hin & H). exists p0, p1, rest.
  split; [now right|exact H].
Qed.

Lemma load_items_rows (items : list json) :
  forall acc acc',
    load_items fs is_ items acc = Ok acc' ->
    length (snd (fst acc)) = length (fst (fst acc)) ->
    length (snd acc) = length (fst (fst acc)) ->
    exists rows,
      rows_of acc' = rows_of acc ++ rows /\
      Forall (fun t => item_row fs is_ items t /\ positive_row t) rows.
Proof.
  induction items as [|it rest IH]; intros acc acc' H Hy Hr.
  - cbn [load_items] in H. injection H as <-. exists [].
    split; [now rewrite app_nil_r|constructor].
  - assert (Hskip : load_items fs is_ rest acc = Ok acc' ->
                    exists rows,
                      rows_of acc' = rows_of acc ++ rows /\
                      Forall (fun t => item_row fs is_ (it :: rest) t
                                       /\ positive_row t) rows).
    { intros H'. destruct (IH _ _ H' Hy Hr) as (rows & E & F).
      exists rows. split; [exact E|].
      eapply Forall_impl; [|exact F].
      intros t [Ht Hp]. split; [now apply item_row_cons|exact Hp]. }
    cbn [load_items] in H.
    destruct it as [| | | | |l|d]; try (now apply Hskip).
    destruct (parse_item fs d) as [[x y]|] eqn:Ep; [|now apply Hskip].
    destruct (Rgtb x 0) eqn:Ex; [|now apply Hskip].
    destruct (Rgtb y 0) eqn:Ey; [|now apply Hskip].
    cbn [andb] in H. destruct acc as [[xs ys] runs].
    destruct (py_int is_ (get_default d "runs" (JInt 0))) as [r|] eqn:Er;
      cbn [bind] in H; [|discriminate].
    cbn [fst snd] in Hy, Hr.
    destruct (IH _ _ H) as (rows & E & F).
    { cbn [fst snd]. rewrite !length_app. cbn [length]. lia. }
    { cbn [fst snd]. rewrite !length_app. cbn [length]. lia. }
    exists ((x, y, r) :: rows). split.
    + rewrite E. unfold rows_of. cbn [fst snd].
      rewrite zip3_snoc by assumption. rewrite <- app_assoc. reflexivity.
    + constructor.
      * split.
        -- exists d. cbn [fst snd]. split; [now left|]. split; assumption.
        -- split; cbn [fst snd]; now apply Rgtb_true.
      * eapply Forall_impl; [|exact F].
        intros t [Ht Hp]. split; [now apply item_row_cons|exact Hp].
Qed.

Lemma load_points_rows (pts : list json) :
  forall acc acc',
    load_points fs pts acc = Ok acc' ->
    length (snd acc) = length (fst acc) ->
    exists prs,
      combine (fst acc') (snd acc') = combine (fst acc) (snd acc) ++ prs /\
      Forall (fun p => point_row fs pts (p, 0%Z) /\ positive_row (p, 0%Z))
             prs.
Proof.
  induction pts as [|e rest IH]; intros acc acc' H Hy.
  - cbn [load_points] in H. injection H as <-. exists [].
    split; [now rewrite app_nil_r|constructor].
  - assert (Hskip : load_points fs rest acc = Ok acc' ->
                    exists prs,
                      combine (fst acc') (snd acc')
                      = combine (fst acc) (snd acc) ++ prs /\
                      Forall (fun p => point_row fs (e :: rest) (p, 0%Z)
                                       /\ positive_row (p, 0%Z)) prs).
    { intros H'. destruct (IH _ _ H' Hy) as (prs & E & F).
      exists prs. split; [exact E|].
      eapply Forall_impl; [|exact F].
      intros t [Ht Hp]. split; [now apply point_row_cons|exact Hp]. }
    cbn [load_points] in H.
    destruct e as [| | | | |l|d]; try (now apply Hskip).
    destruct l as [|p0 [|p1 l]]; try (now apply Hskip).
    destruct (py_float fs p0) as [x|] eqn:E0; cbn [bind] in H;
      [|discriminate].
    destruct (py_float fs p1) as [y|] eqn:E1; cbn [bind] in H;
      [|discriminate].
    destruct (Rgtb x 0) eqn:Ex; [|now apply Hskip].
    destruct (Rgtb y 0) eqn:Ey; [|now apply Hskip].
    cbn [andb] in H. destruct acc as [xs ys]. cbn [fst snd] in Hy.
    destruct (IH _ _ H) as (prs & E & F).
    { cbn [fst snd]. rewrite !length_app. cbn [length]. lia. }
    exists ((x, y) :: prs). split.
    + rewrite E. cbn [fst snd]. rewrite combine_snoc by lia.
      rewrite <- app_assoc. reflexivity.
    + constructor.
      * split.
        -- exists p0, p1, l. cbn [fst snd]. split; [now left|]. auto.
        -- split; cbn [fst snd]; now apply Rgtb_true.
      * eapply Forall_impl; [|exact F].
        intros t [Ht Hp]. split; [now apply point_row_cons|exact Hp].
Qed.

Lemma combine_repeat_zero {A : Type} (l : list A) :
  combine l (repeat 0%Z (length l)) = map (fun p => (p, 0%Z)) l.
Proof.
  induction l as [|a l IH]; [reflexivity|].
  cbn [length repeat combine map]. now rewrite IH.
Qed.

(** What a successful load returns: the retained rows, in the order of
    the file, sorted by x. *)
Lemma load_series_rows (obj : dict) (xs ys : list R) (runs : list Z)
    (n : option Z) :
  load_series fs is_ obj = Ok (xs, ys, runs, n) ->
  exists rows,
    xs = map (fun t : row => fst (fst t)) (sorted rows) /\
    ys = map (fun t : row => snd (fst t)) (sorted rows) /\
    runs = map (fun t : row => snd t) (sorted rows) /\
    Forall positive_row rows /\
    let items := _try_get obj ["report"; "series"]%string (JList []) in
    (is_dict_schema items = true ->
     Forall (item_row fs is_ (list_of items)) rows) /\
    (is_dict_schema items = false ->
     match dict_get "points" obj with
     | Some (JList pts) => Forall (point_row fs pts) rows
     | _ => rows = []
     end).
Proof.
  intros H. unfold load_series in H. cbv zeta in H. cbv zeta.
  destruct (is_dict_schema (_try_get obj ["report"; "series"]%string
                              (JList []))).
  - destruct (load_items fs is_
                (list_of (_try_get obj ["report"; "series"]%string
                            (JList []))) ([], [], []))
      as [[[xs0 ys0] runs0]|] eqn:E; cbn [bind] in H; [|discriminate].
    apply load_items_rows in E as (rows & Er & F); trivial.
    unfold rows_of in Er. cbn [fst snd app] in Er.
    change (zip3 [] [] []) with (@nil row) in Er. cbn [app] in Er.
    rewrite Er in H. injection H as <- <- <- _.
    exists rows. repeat split; trivial.
    + eapply Forall_impl; [|exact F]. now intros t [_ Hp].
    + intros _. eapply Forall_impl; [|exact F]. now intros t [Ht _].
    + discriminate.
  - destruct (dict_get "points" obj) as [[| | | | |pts|]|];
      try (injection H as <- <- <- _; exists []; repeat split;
           trivial; discriminate).
    destruct (load_points fs pts ([], [])) as [[xs0 ys0]|] eqn:E;
      cbn [bind] in H; [|discriminate].
    pose proof (load_points_lengths fs pts _ _ E eq_refl) as Hlen.
    apply load_points_rows in E as (prs & Er & F); trivial.
    cbn [fst snd combine app] in Er, Hlen.
    assert (Hz : zip3 xs0 ys0 (repeat 0%Z (length xs0))
                 = map (fun p => (p, 0%Z)) prs).
    { unfold zip3. rewrite Er.
      replace (length xs0) with (length prs)
        by (rewrite <- Er, length_combine; lia).
      apply combine_repeat_zero. }
    destruct (match xs0 with
              | [] => Ok None
              | _ :: _ =>
                  bind (py_int is_
                          (get_default obj "n"
                             (JInt (Z.of_nat (length xs0)))))
                       (fun n0 => Ok (Some n0))
              end) as [n0|]; cbn [bind] in H; [|discriminate].
    rewrite Hz in H. injection H as <- <- <- _.
    exists (map (fun p => (p, 0%Z)) prs). repeat split; trivial.
    + apply Forall_map. eapply Forall_impl; [|exact F].
      now intros p [_ Hp].
    + discriminate.
    + intros _. apply Forall_map. eapply Forall_impl; [|exact F].
      now intros p [Ht _].
Qed.

End LoaderRows.

Lemma Forall_sorted (P : row -> Prop) (rows : list row) :
  Forall P rows -> Forall P (sorted rows).
Proof.
  intros H. rewrite Forall_forall in *. intros t Ht.
  apply H. now apply (Permutation_in _ (sorted_perm rows)).
Qed.

(** X1: a successful load retains only points with x > 0 and y > 0, under
    either schema. *)
Theorem load_series_retains_positive (fs : string -> option R)
    (is_ : string -> option Z) (obj : dict) (xs ys : list R)
    (runs : list Z) (n : option Z) :
  load_series fs is_ obj = Ok (xs, ys, runs, n) ->
  Forall (fun x => 0 < x) xs /\ Forall (fun y => 0 < y) ys.
Proof.
  intros H. apply load_series_rows in H as (rows & -> & -> & _ & Hp & _).
  apply Forall_sorted in Hp. split; apply Forall_map;
    (eapply Forall_impl; [|exact Hp]); now intros t [Hx Hy].
Qed.

Lemma load_series_retains_positive_example :
  Forall (fun x => 0 < x) [1; 10; 100]
  /\ Forall (fun y => 0 < y) [1; 10; 100].
Proof.
  exact (load_series_retains_positive no_float_str no_int_str pow10_points
           _ _ _ _ (load_series_pow10_points no_float_str no_int_str)).
Defined.

(** X2: the xs of a successful load are in ascending order. *)
Theorem load_series_ascending (fs : string -> option R)
    (is_ : string -> option Z) (obj : dict) (xs ys : list R)
    (runs : list Z) (n : option Z) :
  load_series fs is_ obj = Ok (xs, ys, runs, n) -> ascending xs.
Proof.
  intros H. apply load_series_rows in H as (rows & -> & _).
  apply StronglySorted_map_key, sorted_sorted.
Qed.

Lemma load_series_ascending_example : ascending [1; 10; 100].
Proof.
  exact (load_series_ascending no_float_str no_int_str pow10_points
           _ _ _ _ (load_series_pow10_points no_float_str no_int_str)).
Defined.

(** X3: the three lists of a successful load have the same length. *)
Theorem load_series_parallel_lists (fs : string -> option R)
    (is_ : string -> option Z) (obj : dict) (xs ys : list R)
    (runs : list Z) (n : option Z) :
  load_series fs is_ obj = Ok (xs, ys, runs, n) ->
  length ys = length xs /\ length runs = length xs.
Proof.
  intros H. apply load_series_rows in H as (rows & -> & -> & -> & _).
  now rewrite !length_map.
Qed.

Lemma load_series_parallel_lists_example :
  length [1; 10; 100] = length [1; 10; 100]
  /\ length [0%Z; 0%Z; 0%Z] = length [1; 10; 100].
Proof.
  exact (load_series_parallel_lists no_float_str no_int_str pow10_points
           _ _ _ _ (load_series_pow10_points no_float_str no_int_str)).
Defined.

(** X4: after sorting, each position still holds one point of the file:
    under the dict schema the x, y and run count at a position are the
    ["dt"], ["tail_median"] and ["runs"] (0 when missing) of one element;
    under the points schema they are the first two numbers of one entry and
    a run count of 0. *)
Theorem load_series_rows_aligned (fs : string -> option R)
    (is_ : string -> option Z) (obj : dict) (xs ys : list R)
    (runs : list Z) (n : option Z) :
  load_series fs is_ obj = Ok (xs, ys, runs, n) ->
  let items := _try_get obj ["report"; "series"]%string (JList []) in
  (is_dict_schema items = true ->
   forall t, In t (zip3 xs ys runs) -> item_row fs is_ (list_of items) t) /\
  (is_dict_schema items = false ->
   forall pts, dict_get "points" obj = Some (JList pts) ->
   forall t, In t (zip3 xs ys runs) -> point_row fs pts t).
Proof.
  intros H. cbv zeta.
  apply load_series_rows in H as (rows & -> & -> & -> & _ & Hd & Hp).
  cbv zeta in Hd, Hp. rewrite zip3_unzip. split.
  - intros E t Ht. specialize (Hd E). rewrite Forall_forall in Hd.
    apply Hd. now apply (Permutation_in _ (sorted_perm rows)).
  - intros E pts Hpts t Ht. specialize (Hp E). rewrite Hpts in Hp.
    rewrite Forall_forall in Hp.
    apply Hp. now apply (Permutation_in _ (sorted_perm rows)).
Qed.

Lemma load_series_rows_aligned_example :
  point_row no_float_str
    [JList [JInt 1; JInt 1]; JList [JInt 10; JInt 10];
     JList [JInt 100; JInt 100]] (1, 1, 0%Z).
Proof.
  apply (proj2 (load_series_rows_aligned no_float_str no_int_str
                  pow10_points _ _ _ _
                  (load_series_pow10_points no_float_str no_int_str))
               eq_refl _ eq_refl).
  left. reflexivity.
Defined.

Lemma filter_none {A : Type} (p : A -> bool) (l : list A) :
  (forall a, In a l -> p a = false) -> filter p l = [].
Proof.
  induction l as [|a l IH]; intros H; [reflexivity|].
  cbn [filter]. rewrite (H a) by now left.
  apply IH. intros b Hb. apply H. now right.
Qed.

Lemma insert_row_filter (k : R) (t : row) (l : list row) :
  StronglySorted (fun a b => key a <= key b) l ->
  filter (fun u => Reqb (key u) k) (insert_row t l)
  = filter (fun u => Reqb (key u) k) l
    ++ (if Reqb (key t) k then [t] else []).
Proof.
  induction 1 as [|h tl Hs IH Hh]; cbn [insert_row].
  - cbn [filter]. destruct (Reqb (key t) k); reflexivity.
  - destruct (Rlt_dec (key t) (key h)) as [Hlt|Hge].
    + cbn [filter]. destruct (Reqb (key t) k) eqn:Et.
      * apply Reqb_true in Et.
        assert (Eh : Reqb (key h) k = false) by (apply Reqb_false; lra).
        rewrite Eh. rewrite filter_none; [reflexivity|].
        intros u Hu. rewrite Forall_forall in Hh. specialize (Hh u Hu).
        apply Reqb_false. lra.
      * now rewrite app_nil_r.
    + cbn [filter]. rewrite IH.
      destruct (Reqb (key h) k); reflexivity.
Qed.

(** X5: the sort of the loader returns the same rows, in ascending order
    of x, and rows with the same x keep the order they had. *)
Theorem sorted_is_stable_sort (l : list row) :
  Permutation (sorted l) l /\
  ascending (map (fun t : row => fst (fst t)) (sorted l)) /\
  forall k, filter (fun u => Reqb (key u) k) (sorted l)
            = filter (fun u => Reqb (key u) k) l.
Proof.
  split; [apply sorted_perm|]. split.
  - apply StronglySorted_map_key, sorted_sorted.
  - intros k. unfold sorted.
    assert (H : forall acc,
               StronglySorted (fun a b => key a <= key b) acc ->
               filter (fun u => Reqb (key u) k)
                 (fold_left (fun acc t => insert_row t acc) l acc)
               = filter (fun u => Reqb (key u) k) acc
                 ++ filter (fun u => Reqb (key u) k) l).
    { induction l as [|t l IH]; intros acc Hacc; cbn [fold_left].
      - cbn [filter]. now rewrite app_nil_r.
      - rewrite IH by now apply insert_row_sorted.
        rewrite insert_row_filter by assumption.
        rewrite <- app_assoc. f_equal. cbn [filter].
        destruct (Reqb (key t) k); reflexivity. }
    apply (H []). constructor.
Qed.

(** X6: when the "report"/"series" value selects the dict schema, nothing
    else in the record matters: the load equals that of a record holding
    only that list, so a "points" or "n" key beside it is ignored. *)
Theorem load_series_dict_schema_only (fs : string -> option R)
    (is_ : string -> option Z) (obj : dict) :
  let items := _try_get obj ["report"; "series"]%string (JList []) in
  is_dict_schema items = true ->
  load_series fs is_ obj = load_series fs is_ [("report"%string, items)].
Proof.
  cbv zeta. intros H. unfold load_series. cbv zeta.
  set (items := _try_get obj ["report"; "series"]%string (JList [])) in *.
  assert (E : _try_get [("report"%string, items)]
                ["report"; "series"]%string (JList []) = items).
  { cbn [_try_get dict_get]. rewrite String.eqb_refl.
    destruct items; try discriminate H. reflexivity. }
  rewrite E, H. reflexivity.
Qed.

Lemma load_series_dict_schema_only_example :
  load_series no_float_str no_int_str
    [("series"%string, JList [JObj [("dt"%string, JFloat 0.01);
                                    ("tail_median"%string, JFloat 0.5)]]);
     ("points"%string, JList [JList [JInt 1; JInt 2]]);
     ("n"%string, JInt 7)]
  = load_series no_float_str no_int_str
      [("report"%string, JList [JObj [("dt"%string, JFloat 0.01);
                                      ("tail_median"%string, JFloat 0.5)]])].
Proof.
  exact (load_series_dict_schema_only no_float_str no_int_str
           [("series"%string,
             JList [JObj [("dt"%string, JFloat 0.01);
                          ("tail_median"%string, JFloat 0.5)]]);
            ("points"%string, JList [JList [JInt 1; JInt 2]]);
            ("n"%string, JInt 7)] eq_refl).
Defined.

Section LoaderFailures.

Variable fs : string -> option R.
Variable is_ : string -> option Z.

Lemma load_items_raise (items : list json) (e : exn) :
  forall acc,
    load_items fs is_ items acc = Raise e ->
    exists d x y,
      In (JObj d) items /\ parse_item fs d = Ok (x, y) /\ 0 < x /\ 0 < y /\
      py_int is_ (get_default d "runs" (JInt 0)) = Raise e.
Proof.
  induction items as [|it rest IH]; intros acc H;
    cbn [load_items] in H; [discriminate|].
  assert (Hskip : load_items fs is_ rest acc = Raise e ->
                  exists d x y,
                    In (JObj d) (it :: rest) /\ parse_item fs d = Ok (x, y)
                    /\ 0 < x /\ 0 < y /\
                    py_int is_ (get_default d "runs" (JInt 0)) = Raise e).
  { intros H'. destruct (IH _ H') as (d & x & y & Hin & Hr).
    exists d, x, y. split; [now right|exact Hr]. }
  destruct it as [| | | | |l|d]; try (now apply Hskip).
  destruct (parse_item fs d) as [[x y]|] eqn:Ep; [|now apply Hskip].
  destruct (Rgtb x 0) eqn:Ex; [|now apply Hskip].
  destruct (Rgtb y 0) eqn:Ey; [|now apply Hskip].
  cbn [andb] in H. destruct acc as [[xs ys] runs].
  destruct (py_int is_ (get_default d "runs" (JInt 0))) as [r|e'] eqn:Er;
    cbn [bind] in H.
  - destruct (IH _ H) as (d' & x' & y' & Hin & Hr).
    exists d', x', y'. split; [now right|exact Hr].
  - injection H as ->. exists d, x, y.
    apply Rgtb_true in Ex, Ey. split; [now left|]. auto.
Qed.

Lemma load_points_raise (pts : list json) (e : exn) :
  forall acc,
    load_points fs pts acc = Raise e ->
    exists p0 p1 rest,
      In (JList (p0 :: p1 :: rest)) pts /\
      (py_float fs p0 = Raise e \/
       (exists x, py_float fs p0 = Ok x) /\ py_float fs p1 = Raise e).
Proof.
  induction pts as [|en rest IH]; intros acc H;
    cbn [load_points] in H; [discriminate|].
  assert (Hskip : load_points fs rest acc = Raise e ->
                  exists p0 p1 rest',
                    In (JList (p0 :: p1 :: rest')) (en :: rest) /\
                    (py_float fs p0 = Raise e \/
                     (exists x, py_float fs p0 = Ok x)
                     /\ py_float fs p1 = Raise e)).
  { intros H'. destruct (IH _ H') as (p0 & p1 & r' & Hin & Hr).
    exists p0, p1, r'. split; [now right|exact Hr]. }
  destruct en as [| | | | |l|d]; try (now apply Hskip).
  destruct l as [|p0 [|p1 l]]; try (now apply Hskip).
  destruct (py_float fs p0) as [x|e0] eqn:E0; cbn [bind] in H.
  - destruct (py_float fs p1) as [y|e1] eqn:E1; cbn [bind] in H.
    + destruct (Rgtb x 0 && Rgtb y 0); [|now apply Hskip].
      destruct acc as [xs ys].
      destruct (IH _ H) as (q0 & q1 & r' & Hin & Hr).
      exists q0, q1, r'. split; [now right|exact Hr].
    + injection H as ->. exists p0, p1, l. split; [now left|].
      right. rewrite E0. split; [now exists x|exact E1].
  - injection H as ->. exists p0, p1, l. split; [now left|].
    left. exact E0.
Qed.

(** X7: the only ways a load can raise.  Under the dict schema an element
    with numeric positive ["dt"] and ["tail_median"] has a ["runs"] that
    [int] rejects; under the points schema an entry of two or more elements
    has a first or second element that [float] rejects, or a point was
    retained and [int] rejects the ["n"] field.  A record of neither schema
    never raises. *)
Theorem load_series_failure_cause (obj : dict) (e : exn) :
  load_series fs is_ obj = Raise e ->
  let items := _try_get obj ["report"; "series"]%string (JList []) in
  (is_dict_schema items = true /\
   exists d x y,
     In (JObj d) (list_of items) /\ parse_item fs d = Ok (x, y) /\
     0 < x /\ 0 < y /\
     py_int is_ (get_default d "runs" (JInt 0)) = Raise e) \/
  (is_dict_schema items = false /\
   exists pts,
     dict_get "points" obj = Some (JList pts) /\
     ((exists p0 p1 rest,
         In (JList (p0 :: p1 :: rest)) pts /\
         (py_float fs p0 = Raise e \/
          (exists x, py_float fs p0 = Ok x) /\ py_float fs p1 = Raise e)) \/
      (exists v, dict_get "n" obj = Some v /\ py_int is_ v = Raise e))).
Proof.
  intros H. cbv zeta. unfold load_series in H. cbv zeta in H.
  destruct (is_dict_schema (_try_get obj ["report"; "series"]%string
                              (JList []))).
  - left. split; [reflexivity|].
    destruct (load_items fs is_
                (list_of (_try_get obj ["report"; "series"]%string
                            (JList []))) ([], [], []))
      as [[[xs0 ys0] runs0]|e'] eqn:E; cbn [bind] in H; [discriminate|].
    injection H as ->. now apply load_items_raise in E.
  - right. split; [reflexivity|].
    destruct (dict_get "points" obj) as [[| | | | |pts|]|];
      try discriminate H.
    exists pts. split; [reflexivity|].
    destruct (load_points fs pts ([], [])) as [[xs0 ys0]|e'] eqn:E;
      cbn [bind] in H.
    + right. destruct xs0 as [|x0 l0]; cbn [bind] in H; [discriminate|].
      unfold get_default in H.
      destruct (dict_get "n" obj) as [v|]; cbn [py_int bind] in H;
        [|discriminate].
      exists v. split; [reflexivity|].
      destruct (py_int is_ v) as [z|e'']; cbn [bind] in H; [discriminate|].
      now injection H as ->.
    + left. injection H as ->. now apply load_points_raise in E.
Qed.

End LoaderFailures.

Lemma load_series_failure_cause_example :
  exists pts,
    dict_get "points"
      [("points"%string, JList [JList [JNull; JFloat 1]])]
    = Some (JList pts) /\
    ((exists p0 p1 rest,
        In (JList (p0 :: p1 :: rest)) pts /\
        (py_float no_float_str p0 = Raise TypeError \/
         (exists x, py_float no_float_str p0 = Ok x)
         /\ py_float no_float_str p1 = Raise TypeError)) \/
     (exists v, dict_get "n"
                  [("points"%string, JList [JList [JNull; JFloat 1]])]
                = Some v /\ py_int no_int_str v = Raise TypeError)).
Proof.
  assert (H : load_series no_float_str no_int_str
                [("points"%string, JList [JList [JNull; JFloat 1]])]
              = Raise TypeError) by reflexivity.
  destruct (load_series_failure_cause no_float_str no_int_str _ _ H)
    as [[Hd _]|[_ Hp]]; [discriminate Hd|exact Hp].
Defined.

(** * The loader followed by the fitter *)

Lemma combine_map_map {A B C : Type} (f : A -> B) (g : A -> C)
    (l : list A) :
  combine (map f l) (map g l) = map (fun x => (f x, g x)) l.
Proof. induction l as [|x l IH]; cbn [map combine]; now rewrite ?IH. Qed.

Lemma filter_all {A : Type} (p : A -> bool) (l : list A) :
  (forall a, In a l -> p a = true) -> filter p l = l.
Proof.
  induction l as [|a l IH]; intros H; [reflexivity|].
  cbn [filter]. rewrite (H a) by now left.
  f_equal. apply IH. intros b Hb. apply H. now right.
Qed.

Lemma positive_points_of_rows (z : list row) :
  Forall positive_row z ->
  positive_points (map (fun t : row => fst (fst t)) z)
                  (map (fun t : row => snd (fst t)) z)
  = map (fun t : row => (fst (fst t), snd (fst t))) z.
Proof.
  intros H. unfold positive_points. rewrite combine_map_map.
  apply filter_all. intros p Hp.
  apply in_map_iff in Hp as [t [<- Ht]].
  rewrite Forall_forall in H. destruct (H t Ht) as [Hx Hy].
  cbn [fst snd]. apply Rgtb_true in Hx, Hy. now rewrite Hx, Hy.
Qed.

(** X10: on a loaded series the fitter discards nothing: its positive
    points are all the loaded points, so a fit counts every loaded point,
    and there is no fit when fewer than three points were loaded. *)
Theorem load_series_then_ols_log10 (fs : string -> option R)
    (is_ : string -> option Z) (obj : dict) (xs ys : list R)
    (runs : list Z) (n : option Z) :
  load_series fs is_ obj = Ok (xs, ys, runs, n) ->
  positive_points xs ys = combine xs ys /\
  (forall f, ols_log10 xs ys = Some f -> fit_n f = length xs) /\
  ((length xs < 3)%nat -> ols_log10 xs ys = None).
Proof.
  intros H. apply load_series_rows in H as (rows & -> & -> & _ & Hp & _).
  apply Forall_sorted in Hp. set (z := sorted rows) in *.
  pose proof (positive_points_of_rows z Hp) as Hpts.
  assert (Hc : combine (map (fun t : row => fst (fst t)) z)
                       (map (fun t : row => snd (fst t)) z)
               = map (fun t : row => (fst (fst t), snd (fst t))) z)
    by apply combine_map_map.
  split; [now rewrite Hc|]. split.
  - intros f Hf. apply ols_log10_some_inv in Hf. cbv zeta in Hf.
    destruct Hf as (_ & _ & _ & _ & _ & _ & _ & ->).
    unfold log_xs. now rewrite Hpts, !length_map.
  - intros Hlen. apply ols_log10_none_iff. left.
    rewrite Hpts, length_map. now rewrite length_map in Hlen.
Qed.

Lemma load_series_then_ols_log10_example :
  positive_points [1; 10; 100] [1; 10; 100]
  = combine [1; 10; 100] [1; 10; 100] /\
  (forall f, ols_log10 [1; 10; 100] [1; 10; 100] = Some f ->
             fit_n f = length [1; 10; 100]) /\
  ((length [1; 10; 100] < 3)%nat ->
   ols_log10 [1; 10; 100] [1; 10; 100] = None).
Proof.
  exact (load_series_then_ols_log10 no_float_str no_int_str
           pow10_points _ _ _ _
           (load_series_pow10_points no_float_str no_int_str)).
Defined.

(** * Further properties of the duplicate check *)

Lemma all_close_sound (tol : R) (a b : list R) :
  length a = length b ->
  all_close tol (combine a b) = true ->
  forall i, (i < length a)%nat -> Rabs (nth i a 0 - nth i b 0) <= tol.
Proof.
  revert b. induction a as [|x a IH]; intros [|y b] Hlen H i Hi;
    simpl in Hlen, Hi; try discriminate; try lia.
  cbn [combine all_close] in H. apply andb_true_iff in H as [H0 H1].
  destruct i as [|i]; cbn [nth].
  - now apply Rleb_true.
  - apply IH; [lia|assumption|lia].
Qed.

(** X11: [nearly_identical a b tol] holds exactly when the two lists have
    the same length and differ by at most [tol] at every position. *)
Theorem nearly_identical_iff (a b : list R) (tol : R) :
  nearly_identical a b tol = true <-> elementwise_within tol a b.
Proof.
  split; [|apply nearly_identical_complete].
  unfold nearly_identical. intros H.
  destruct (length a =? length b)%nat eqn:E; cbn [negb] in H;
    [|discriminate].
  apply Nat.eqb_eq in E. split; [exact E|].
  now apply all_close_sound.
Qed.

Lemma all_close_sym (tol : R) (a b : list R) :
  all_close tol (combine a b) = all_close tol (combine b a).
Proof.
  revert b. induction a as [|x a IH]; intros [|y b]; try reflexivity.
  cbn [combine all_close]. rewrite IH, (Rabs_minus_sym x y). reflexivity.
Qed.

(** X12: the check does not depend on the order of its two arguments. *)
Theorem nearly_identical_sym (a b : list R) (tol : R) :
  nearly_identical a b tol = nearly_identical b a tol.
Proof.
  unfold nearly_identical.
  rewrite (Nat.eqb_sym (length a) (length b)), all_close_sym.
  reflexivity.
Qed.

Lemma is_dup_iff (xa ya xb yb : list R) :
  is_dup (xa, ya) (xb, yb) = true <->
  xa <> [] /\ xb <> [] /\
  elementwise_within tol_default xa xb /\
  elementwise_within tol_default ya yb.
Proof.
  split.
  - unfold is_dup. cbn [fst snd].
    destruct xa as [|x xa']; [discriminate|].
    destruct xb as [|x' xb']; [discriminate|].
    intros H. apply andb_true_iff in H as [Hx Hy].
    apply nearly_identical_iff in Hx, Hy.
    split; [discriminate|]. split; [discriminate|]. split; assumption.
  - intros (Ha & Hb & Hx & Hy). now apply is_dup_complete.
Qed.

Lemma dup_warnings_sound (sd : list (string * series)) (w : string) :
  In w (dup_warnings sd) ->
  exists l1 a sa l2 b sb l3,
    sd = l1 ++ (a, sa) :: l2 ++ (b, sb) :: l3 /\
    is_dup sa sb = true /\ w = warn_msg a b.
Proof.
  induction sd as [|[a sa] rest IH]; cbn [dup_warnings]; [contradiction|].
  intros H. apply in_app_or in H as [H|H].
  - apply in_map_iff in H as [[b sb] [<- Hb]].
    apply filter_In in Hb as [Hin Hd]. cbn [fst snd] in *.
    apply in_split in Hin as (l2 & l3 & ->).
    exists [], a, sa, l2, b, sb, l3. auto.
  - destruct (IH H) as (l1 & a' & sa' & l2 & b & sb & l3 & -> & Hd & ->).
    exists ((a, sa) :: l1), a', sa', l2, b, sb, l3. auto.
Qed.

(** X13: the warnings printed after the loop are exactly those of the
    pairs of stored series, the first stored before the second, that are
    both non-empty and agree within 1e-12 in x and in y. *)
Theorem dup_warnings_iff (sd : list (string * series)) (w : string) :
  In w (dup_warnings sd) <->
  exists l1 a xa ya l2 b xb yb l3,
    sd = l1 ++ (a, (xa, ya)) :: l2 ++ (b, (xb, yb)) :: l3 /\
    w = warn_msg a b /\
    xa <> [] /\ xb <> [] /\
    elementwise_within tol_default xa xb /\
    elementwise_within tol_default ya yb.
Proof.
  split.
  - intros H. apply dup_warnings_sound in H
      as (l1 & a & [xa ya] & l2 & b & [xb yb] & l3 & -> & Hd & ->).
    apply is_dup_iff in Hd.
    exists l1, a, xa, ya, l2, b, xb, yb, l3. tauto.
  - intros (l1 & a & xa & ya & l2 & b & xb & yb & l3 & -> & -> & Hd).
    apply dup_warnings_in. now apply is_dup_iff.
Qed.

(** * Further properties of the composer *)

Section ComposerMore.

Variable fs : string -> option R.
Variable is_ : string -> option Z.
Variable f3 : float -> string.
Variable f2 : R -> string.

Lemma overlay_step_pct_irrelevant (show_fit : bool) (pct pct' : R)
    (st : overlay) (sp : spec) :
  endswith (lower (label sp)) "thrash" = false ->
  overlay_step fs is_ f3 f2 show_fit pct st sp
  = overlay_step fs is_ f3 f2 show_fit pct' st sp.
Proof.
  intros H. unfold overlay_step.
  destruct (load_series fs is_ (source sp)) as [[[[xs0 ys] runs] n]|];
    [|reflexivity].
  cbn [bind]. now rewrite !(jittered_other _ _ _ H).
Qed.

(** What one iteration adds: nothing, or one caption line, one legend
    label, one call of the fitter and the artists of the series. *)
Lemma overlay_step_shape (show_fit : bool) (pct : R) (st st' : overlay)
    (sp : spec) :
  overlay_step fs is_ f3 f2 show_fit pct st sp = Ok st' ->
  map fst (series_data st')
  = map fst (dict_set (label sp) ([], []) (series_data st)) /\
  ((caption st' = caption st /\ labels st' = labels st /\
    fitted st' = fitted st /\ drawn st' = drawn st) \/
   (exists cl lg ft arts,
      caption st' = caption st ++ [cl] /\ labels st' = labels st ++ [lg] /\
      fitted st' = fitted st ++ [ft] /\ drawn st' = drawn st ++ arts /\
      (show_fit = false ->
       length arts = 2%nat /\ forallb (fun a => negb (is_fit_line a)) arts
                              = true))).
Proof.
  unfold overlay_step.
  destruct (load_series fs is_ (source sp)) as [[[[xs0 ys] runs] n]|];
    cbn [bind]; [|discriminate].
  assert (Hk : forall v v' d,
             map fst (dict_set (label sp) v d)
             = map fst (dict_set (label sp) v' d)).
  { intros v v' d. induction d as [|[k u] d IH]; [reflexivity|].
    cbn [dict_set]. destruct (String.eqb (label sp) k); cbn [map fst];
      [reflexivity|now rewrite IH]. }
  destruct (jittered (label sp) pct xs0) as [|x xs'].
  - intros H. injection H as <-. cbn [series_data caption labels fitted drawn].
    split; [apply Hk|]. left. auto.
  - destruct (ols_log10 (x :: xs') ys) as [f|].
    + destruct show_fit; [destruct (fit_curve f _ _) as [yy|]|];
        cbn [bind]; intros H; try discriminate; injection H as <-;
        cbn [series_data caption labels fitted drawn];
        (split; [apply Hk|]); right.
      * eexists _, _, _, _. repeat split;
          try (rewrite <- app_assoc; reflexivity); discriminate.
      * eexists _, _, _, _. repeat split; reflexivity.
    + intros H; injection H as <-;
        cbn [series_data caption labels fitted drawn];
        (split; [apply Hk|]); right.
      eexists _, _, _, _. repeat split; reflexivity.
Qed.

End ComposerMore.

Section ComposerRuns.

Variable fs : string -> option R.
Variable is_ : string -> option Z.
Variable f3 : float -> string.
Variable f2 : R -> string.

Lemma overlay_loop_counts (show_fit : bool) (pct : R) (specs : list spec) :
  forall st st',
    overlay_loop fs is_ f3 f2 show_fit pct specs st = Ok st' ->
    exists k,
      length (caption st') = (length (caption st) + k)%nat /\
      length (labels st') = (length (labels st) + k)%nat /\
      length (fitted st') = (length (fitted st) + k)%nat /\
      (show_fit = false ->
       length (drawn st') = (length (drawn st) + 2 * k)%nat /\
       (forallb (fun a => negb (is_fit_line a)) (drawn st) = true ->
        forallb (fun a => negb (is_fit_line a)) (drawn st') = true)).
Proof.
  induction specs as [|sp rest IH]; intros st st' H.
  - cbn [overlay_loop] in H. injection H as <-. exists 0%nat.
    repeat split; try lia. auto.
  - cbn [overlay_loop] in H.
    destruct (overlay_step fs is_ f3 f2 show_fit pct st sp) as [st1|] eqn:E;
      cbn [bind] in H; [|discriminate].
    apply overlay_step_shape in E as [_ E].
    destruct (IH _ _ H) as (k & Hc & Hl & Hf & Hd).
    destruct E as [(Ec & El & Ef & Ed)
                  |(cl & lg & ft & arts & Ec & El & Ef & Ed & Ha)].
    + exists k. rewrite Ec, El, Ef, Ed in *. auto.
    + exists (S k). rewrite Ec, El, Ef, Ed in *.
      rewrite !length_app in *. cbn [length] in *.
      repeat split; try lia.
      * destruct (Hd H0) as [Hd1 _]. destruct (Ha H0) as [Ha1 _]. lia.
      * intros Hall. destruct (Hd H0) as [_ Hd2]. apply Hd2.
        rewrite forallb_app, Hall. destruct (Ha H0) as [_ Ha2].
        now rewrite Ha2.
Qed.

Lemma overlay_loop_keys (show_fit : bool) (pct : R) (specs : list spec) :
  forall st st',
    overlay_loop fs is_ f3 f2 show_fit pct specs st = Ok st' ->
    NoDup (map fst (series_data st) ++ map label specs) ->
    map fst (series_data st') = map fst (series_data st) ++ map label specs.
Proof.
  induction specs as [|sp rest IH]; intros st st' H Hnd.
  - cbn [overlay_loop] in H. injection H as <-. cbn [map].
    now rewrite app_nil_r.
  - cbn [overlay_loop] in H.
    destruct (overlay_step fs is_ f3 f2 show_fit pct st sp) as [st1|] eqn:E;
      cbn [bind] in H; [|discriminate].
    apply overlay_step_shape in E as [Hk _].
    assert (Hfresh : ~ In (label sp) (map fst (series_data st))).
    { cbn [map] in Hnd. apply NoDup_remove_2 in Hnd.
      intros Hin. apply Hnd. apply in_or_app. now left. }
    rewrite dict_set_fresh, map_app in Hk by assumption. cbn [map fst] in Hk.
    apply IH in H.
    + rewrite H, Hk, <- app_assoc. reflexivity.
    + rewrite Hk, <- app_assoc. cbn [app]. cbn [map] in Hnd.
      apply NoDup_remove_1 in Hnd as Hnd1.
      apply NoDup_remove_2 in Hnd as Hnd2.
      apply NoDup_Add with (a := label sp)
                           (l := map fst (series_data st) ++ map label rest).
      * apply Add_app.
      * split; assumption.
Qed.

Lemma overlay_loop_loads (show_fit : bool) (pct : R) (specs : list spec) :
  forall st st',
    overlay_loop fs is_ f3 f2 show_fit pct specs st = Ok st' ->
    Forall (fun sp => exists r, load_series fs is_ (source sp) = Ok r) specs.
Proof.
  induction specs as [|sp rest IH]; intros st st' H; [constructor|].
  cbn [overlay_loop] in H.
  destruct (overlay_step fs is_ f3 f2 show_fit pct st sp) as [st1|] eqn:E;
    cbn [bind] in H; [|discriminate].
  constructor; [|now apply (IH _ _ H)].
  apply overlay_step_inv in E as (xs0 & ys & runs & n & Hl & _).
  eexists; exact Hl.
Qed.

(** A run that raises raises the exception of the first file that fails
    to load, or [OverflowError] from a fit line. *)
Lemma overlay_loop_raise (show_fit : bool) (pct : R) (specs : list spec)
    (e : exn) :
  forall st,
    overlay_loop fs is_ f3 f2 show_fit pct specs st = Raise e ->
    (exists l1 sp l2,
       specs = l1 ++ sp :: l2 /\
       Forall (fun sp => exists r, load_series fs is_ (source sp) = Ok r) l1
       /\ load_series fs is_ (source sp) = Raise e) \/
    (show_fit = true /\ e = OverflowError).
Proof.
  induction specs as [|sp rest IH]; intros st H;
    cbn [overlay_loop] in H; [discriminate|].
  destruct (overlay_step fs is_ f3 f2 show_fit pct st sp) as [st1|e'] eqn:E;
    cbn [bind] in H.
  - destruct (IH _ H) as [(l1 & sp' & l2 & -> & Hl1 & Hr)|Hov];
      [left|now right].
    exists (sp :: l1), sp', l2. split; [reflexivity|]. split; [|exact Hr].
    constructor; [|exact Hl1].
    apply overlay_step_inv in E as (xs0 & ys & runs & n & Hl & _).
    eexists; exact Hl.
  - injection H as ->.
    apply overlay_step_raise in E as [Hr|(_ & Hs & He)]; [left|now right].
    exists [], sp, rest. split; [reflexivity|]. split; [constructor|exact Hr].
Qed.

End ComposerRuns.

(** The run on the file [{"points": [[1, 1], [10, 10], [100, 100]]}], given
    as default and as thrash file: it succeeds and fits both series. *)
Lemma make_overlay_pow10_run (fs : string -> option R)
    (is_ : string -> option Z) (f3 : float -> string) (f2 : R -> string)
    (show_fit : bool) (pct : R) :
  pct = 0 \/ pct = 900 ->
  exists st w,
    make_overlay fs is_ f3 f2 pow10_points (Some pow10_points) None
      show_fit pct = Ok (st, w) /\
    length (fitted st) = 2%nat.
Proof.
  intros Hpct.
  pose proof (load_series_pow10_points fs is_) as Hl.
  destruct (overlay_loop_ok fs is_ f3 f2 show_fit pct
              (build_specs pow10_points (Some pow10_points) None))
    with (st := overlay0) as [st Hst].
  { cbn [build_specs app].
    repeat (constructor;
            [split; [eexists; cbn [source]; exact Hl
                    |now apply fit_line_in_range_pow10]|]).
    constructor. }
  exists st, (dup_warnings (series_data st)).
  split; [unfold make_overlay; now rewrite Hst|].
  apply overlay_loop_fitted in Hst. rewrite Hst.
  unfold fitter_calls, loaded_series.
  cbn [build_specs app flat_map label source overlay0 fitted].
  rewrite Hl. cbn [fst snd].
  rewrite (jittered_other "LF-default") by reflexivity.
  unfold jittered.
  destruct (endswith (lower "LF-thrash") "thrash" && negb (Reqb pct 0));
    reflexivity.
Qed.

(** X14: without a thrash file the jitter percentage has no effect at
    all: the labels LF-default and LF-scramble are never jittered. *)
Theorem make_overlay_without_thrash_ignores_jitter
    (fs : string -> option R) (is_ : string -> option Z)
    (f3 : float -> string) (f2 : R -> string)
    (d : dict) (s : option dict) (show_fit : bool) (pct : R) :
  make_overlay fs is_ f3 f2 d None s show_fit pct
  = make_overlay fs is_ f3 f2 d None s show_fit 0.
Proof.
  unfold make_overlay. f_equal.
  destruct s as [p|]; cbn [build_specs app overlay_loop].
  - rewrite (overlay_step_pct_irrelevant fs is_ f3 f2 show_fit pct 0)
      by reflexivity.
    destruct (overlay_step fs is_ f3 f2 show_fit 0 overlay0 _) as [st1|];
      [|reflexivity].
    cbn [bind].
    rewrite (overlay_step_pct_irrelevant fs is_ f3 f2 show_fit pct 0)
      by reflexivity.
    reflexivity.
  - rewrite (overlay_step_pct_irrelevant fs is_ f3 f2 show_fit pct 0)
      by reflexivity.
    reflexivity.
Qed.

(** X15: a run that succeeds stores a series under every label, in the
    order of the specs, and has exactly one caption line and one legend
    label per call of the fitter (none for a series without a point). *)
Theorem make_overlay_one_line_per_fitted_series
    (fs : string -> option R) (is_ : string -> option Z)
    (f3 : float -> string) (f2 : R -> string)
    (d : dict) (t s : option dict) (show_fit : bool) (pct : R)
    (st : overlay) (w : list string) :
  make_overlay fs is_ f3 f2 d t s show_fit pct = Ok (st, w) ->
  map fst (series_data st) = map label (build_specs d t s) /\
  length (caption st) = length (fitted st) /\
  length (labels st) = length (fitted st) /\
  (length (fitted st) <= length (build_specs d t s))%nat.
Proof.
  intros H. unfold make_overlay in H.
  destruct (overlay_loop fs is_ f3 f2 show_fit pct (build_specs d t s)
              overlay0) as [st'|] eqn:E; cbn [bind] in H; [|discriminate].
  injection H as <- _.
  pose proof (overlay_loop_keys fs is_ f3 f2 show_fit pct _ _ _ E) as Hk.
  cbn [overlay0 series_data map app] in Hk.
  specialize (Hk (build_specs_labels_NoDup d t s)).
  pose proof (overlay_loop_fitted fs is_ f3 f2 show_fit pct _ _ _ E) as Hf.
  apply overlay_loop_counts in E as (k & Hc & Hl & Hft & _).
  cbn [overlay0 caption labels fitted length] in *.
  split; [exact Hk|]. split; [lia|]. split; [lia|].
  rewrite Hf. cbn [app]. unfold fitter_calls.
  clear. induction (build_specs d t s) as [|sp l IH]; [reflexivity|].
  cbn [flat_map]. rewrite length_app. cbn [length].
  destruct (jittered (label sp) pct
              (fst (loaded_series fs is_ sp))); cbn [length];
    [exact (le_S _ _ IH)|exact (le_n_S _ _ IH)].
Qed.

Lemma make_overlay_one_line_per_fitted_series_example :
  exists st w,
    make_overlay no_float_str no_int_str no_fmt3 no_fmt2
      pow10_points (Some pow10_points) None true 900 = Ok (st, w) /\
    length (fitted st) = 2%nat /\
    (map fst (series_data st)
     = map label (build_specs pow10_points (Some pow10_points) None) /\
     length (caption st) = length (fitted st) /\
     length (labels st) = length (fitted st) /\
     (length (fitted st)
      <= length (build_specs pow10_points (Some pow10_points) None))%nat).
Proof.
  destruct (make_overlay_pow10_run no_float_str no_int_str no_fmt3 no_fmt2
              true 900 (or_intror eq_refl)) as (st & w & Hm & Hf).
  exists st, w. split; [exact Hm|]. split; [exact Hf|].
  exact (make_overlay_one_line_per_fitted_series no_float_str no_int_str
           no_fmt3 no_fmt2 pow10_points (Some pow10_points) None true 900
           st w Hm).
Defined.

(** X16: a run that raises raises the exception of the first file that
    fails to load, or [OverflowError] from the fit line of a series, which
    needs [show_fit] (and occurs: [make_overlay_fit_line_overflows]);
    nothing else in the loop or in the duplicate check fails.  Without
    [show_fit] a run succeeds exactly when every file loads; with it, a run
    that succeeds has loaded every file. *)
Theorem make_overlay_failure_causes
    (fs : string -> option R) (is_ : string -> option Z)
    (f3 : float -> string) (f2 : R -> string)
    (d : dict) (t s : option dict) (show_fit : bool) (pct : R) :
  (forall e,
     make_overlay fs is_ f3 f2 d t s show_fit pct = Raise e ->
     (exists l1 sp l2,
        build_specs d t s = l1 ++ sp :: l2 /\
        Forall (fun sp => exists r, load_series fs is_ (source sp) = Ok r) l1
        /\ load_series fs is_ (source sp) = Raise e) \/
     (show_fit = true /\ e = OverflowError)) /\
  ((exists st w, make_overlay fs is_ f3 f2 d t s false pct = Ok (st, w))
   <-> Forall (fun sp => exists r, load_series fs is_ (source sp) = Ok r)
              (build_specs d t s)) /\
  ((exists st w, make_overlay fs is_ f3 f2 d t s show_fit pct = Ok (st, w))
   -> Forall (fun sp => exists r, load_series fs is_ (source sp) = Ok r)
             (build_specs d t s)).
Proof.
  unfold make_overlay. split; [|split; [split|]].
  - intros e H.
    destruct (overlay_loop fs is_ f3 f2 show_fit pct (build_specs d t s)
                overlay0) as [st'|e'] eqn:E; cbn [bind] in H; [discriminate|].
    injection H as ->. now apply overlay_loop_raise in E.
  - intros (st & w & H).
    destruct (overlay_loop fs is_ f3 f2 false pct (build_specs d t s)
                overlay0) as [st'|] eqn:E; cbn [bind] in H; [|discriminate].
    now apply overlay_loop_loads in E.
  - intros H.
    destruct (overlay_loop_ok_no_fit fs is_ f3 f2 pct _ H overlay0)
      as [st' ->].
    cbn [bind]. eexists _, _. reflexivity.
  - intros (st & w & H).
    destruct (overlay_loop fs is_ f3 f2 show_fit pct (build_specs d t s)
                overlay0) as [st'|] eqn:E; cbn [bind] in H; [|discriminate].
    now apply overlay_loop_loads in E.
Qed.

(** X17: without [show_fit] the axes receive exactly a line and a set of
    markers per fitted series and never a fit line. *)
Theorem make_overlay_no_fit_line_without_show_fit
    (fs : string -> option R) (is_ : string -> option Z)
    (f3 : float -> string) (f2 : R -> string)
    (d : dict) (t s : option dict) (pct : R)
    (st : overlay) (w : list string) :
  make_overlay fs is_ f3 f2 d t s false pct = Ok (st, w) ->
  length (drawn st) = (2 * length (fitted st))%nat /\
  forall a, In a (drawn st) -> is_fit_line a = false.
Proof.
  intros H. unfold make_overlay in H.
  destruct (overlay_loop fs is_ f3 f2 false pct (build_specs d t s)
              overlay0) as [st'|] eqn:E; cbn [bind] in H; [|discriminate].
  injection H as <- _.
  apply overlay_loop_counts in E as (k & _ & _ & Hft & Hd).
  destruct (Hd eq_refl) as [Hlen Hall].
  cbn [overlay0 fitted drawn length] in *.
  split; [lia|].
  specialize (Hall eq_refl). rewrite forallb_forall in Hall.
  intros a Ha. specialize (Hall a Ha). now destruct (is_fit_line a).
Qed.

Lemma make_overlay_no_fit_line_without_show_fit_example :
  exists st w,
    make_overlay no_float_str no_int_str no_fmt3 no_fmt2
      pow10_points (Some pow10_points) None false 900 = Ok (st, w) /\
    length (fitted st) = 2%nat /\
    (length (drawn st) = (2 * length (fitted st))%nat /\
     forall a, In a (drawn st) -> is_fit_line a = false).
Proof.
  destruct (make_overlay_pow10_run no_float_str no_int_str no_fmt3 no_fmt2
              false 900 (or_intror eq_refl)) as (st & w & Hm & Hf).
  exists st, w. split; [exact Hm|]. split; [exact Hf|].
  exact (make_overlay_no_fit_line_without_show_fit no_float_str no_int_str
           no_fmt3 no_fmt2 pow10_points (Some pow10_points) None 900
           st w Hm).
Defined.

(** * Further properties of the tick selector *)

Lemma cand_increasing_from (start n : nat) :
  StronglySorted Rlt (map (fun i => 1 + 0.2 * INR i) (seq start n)).
Proof.
  revert start. induction n as [|n IH]; intros start; cbn [seq map].
  - constructor.
  - constructor; [apply IH|].
    apply Forall_forall. intros x Hx.
    apply in_map_iff in Hx as [j [<- Hj]]. apply in_seq in Hj.
    assert (INR start < INR j) by (apply lt_INR; lia). lra.
Qed.

Lemma cand_increasing : StronglySorted Rlt cand.
Proof. apply cand_increasing_from. Qed.

Lemma StronglySorted_filter_Rlt (p : R -> bool) (l : list R) :
  StronglySorted Rlt l -> StronglySorted Rlt (filter p l).
Proof.
  induction 1 as [|a l Hs IH Ha]; cbn [filter]; [constructor|].
  destruct (p a); [|exact IH].
  constructor; [exact IH|].
  rewrite Forall_forall in *. intros x Hx.
  apply filter_In in Hx as [Hx _]. now apply Ha.
Qed.

Lemma StronglySorted_nth_lt (l : list R) :
  StronglySorted Rlt l ->
  forall i j, (i < j)%nat -> (j < length l)%nat -> nth i l 0 < nth j l 0.
Proof.
  induction 1 as [|a l Hs IH Ha]; intros i j Hij Hj; cbn [length] in Hj;
    [lia|].
  destruct j as [|j]; [lia|]. destruct i as [|i]; cbn [nth].
  - rewrite Forall_forall in Ha. apply Ha. apply nth_In. lia.
  - apply IH; lia.
Qed.

Lemma linspace_int_step (last num i j : nat) :
  (num <= S last)%nat -> (i < j)%nat -> (j < num)%nat ->
  (i * last / (num - 1) < j * last / (num - 1))%nat.
Proof.
  intros Hnum Hij Hj.
  assert (Hd : (num - 1 <> 0)%nat) by lia.
  assert (Hle : (i * last + 1 * (num - 1) <= j * last)%nat) by nia.
  apply (Nat.Div0.div_le_mono _ _ (num - 1)) in Hle.
  rewrite Nat.div_add in Hle by assumption. lia.
Qed.

Lemma linspace_int_increasing (last num : nat) :
  (num <= S last)%nat -> StronglySorted lt (linspace_int last num).
Proof.
  intros Hnum. unfold linspace_int.
  assert (H : forall start n,
             (start + n <= num)%nat ->
             StronglySorted lt
               (map (fun i => (i * last / (num - 1))%nat) (seq start n))).
  { intros start n. revert start.
    induction n as [|n IH]; intros start Hb; cbn [seq map].
    - constructor.
    - constructor; [apply IH; lia|].
      apply Forall_forall. intros x Hx.
      apply in_map_iff in Hx as [j [<- Hj]]. apply in_seq in Hj.
      apply linspace_int_step; lia. }
  apply H. lia.
Qed.

Lemma StronglySorted_pick (l : list R) (base : R) (idx : list nat) :
  0 < base -> StronglySorted Rlt l -> StronglySorted lt idx ->
  Forall (fun i => (i < length l)%nat) idx ->
  StronglySorted Rlt (map (fun i => nth i l 0 * base) idx).
Proof.
  intros Hb Hl Hidx. induction Hidx as [|i idx Hs IH Hi]; intros Hlt;
    cbn [map]; [constructor|].
  apply Forall_cons_iff in Hlt as [Hi0 Hrest].
  constructor; [now apply IH|].
  rewrite Forall_forall in *. intros x Hx.
  apply in_map_iff in Hx as [j [<- Hj]].
  apply Rmult_lt_compat_r; [assumption|].
  apply StronglySorted_nth_lt; auto.
Qed.

(** The candidates the selector keeps for a range. *)
Lemma kept_candidate_iff (lo hi base c : R) :
  0 < base ->
  (Rleb (lo / base - tol_default) c && Rleb c (hi / base + tol_default)
   = true
   <-> lo - tol_default * base <= c * base
       /\ c * base <= hi + tol_default * base).
Proof.
  intros Hb. rewrite andb_true_iff, !Rleb_true.
  assert (E1 : (lo / base - tol_default) * base = lo - tol_default * base)
    by (field; lra).
  assert (E2 : (hi / base + tol_default) * base = hi + tol_default * base)
    by (field; lra).
  split; intros [H1 H2].
  - rewrite <- E1, <- E2.
    split; apply Rmult_le_compat_r; lra.
  - rewrite <- E1 in H1. rewrite <- E2 in H2.
    split; apply (Rmult_le_reg_r base); assumption.
Qed.

(** X18: for a positive finite range and [max_labels >= 1] the selector
    always returns at least one tick (the fallback supplies [max_labels]
    values when no candidate is kept), so the caller always installs a
    fixed locator. *)
Theorem nice_sparse_log_ticks_nonempty (lo hi : R) (max_labels : nat) :
  0 < lo -> 0 < hi -> (1 <= max_labels)%nat ->
  (1 <= length (_nice_sparse_log_ticks (Fin lo) (Fin hi) max_labels)
   <= max_labels)%nat.
Proof.
  intros Hlo Hhi Hm. rewrite ticks_positive_unfold by assumption.
  cbv zeta. rewrite length_map, linspace_int_length.
  destruct (filter _ cand) as [|c tl].
  - unfold geomspace. rewrite length_map, length_seq. lia.
  - cbn [length]. lia.
Qed.

Lemma nice_sparse_log_ticks_nonempty_example :
  (1 <= length (_nice_sparse_log_ticks (Fin 1) (Fin 2) 4) <= 4)%nat.
Proof.
  apply (nice_sparse_log_ticks_nonempty 1 2 4); [lra|lra|lia].
Defined.

(** X19: when some candidate is kept, the ticks are strictly increasing
    (no tick is repeated) and each one is a kept candidate mantissa times
    the power of ten of [ymin]. *)
Theorem nice_sparse_log_ticks_increasing (lo hi : R) (max_labels : nat) :
  0 < lo -> 0 < hi ->
  let base := powerRZ 10 (Int_part (log10 lo)) in
  (exists c, In c cand /\
             lo - tol_default * base <= c * base
             /\ c * base <= hi + tol_default * base) ->
  let ticks := _nice_sparse_log_ticks (Fin lo) (Fin hi) max_labels in
  StronglySorted Rlt ticks /\
  forall v, In v ticks ->
            exists c, In c cand /\ v = c * base /\
                      lo - tol_default * base <= c * base
                      /\ c * base <= hi + tol_default * base.
Proof.
  intros Hlo Hhi base (c & Hc & Hcb). cbv zeta.
  rewrite ticks_positive_unfold by assumption. cbv zeta. fold base.
  assert (Hb : 0 < base) by (apply powerRZ_lt; lra).
  set (keep := fun c : R => Rleb (lo / base - tol_default) c
                            && Rleb c (hi / base + tol_default)).
  assert (Hin : In c (filter keep cand)).
  { apply filter_In. split; [exact Hc|].
    unfold keep. now apply kept_candidate_iff. }
  pose proof (StronglySorted_filter_Rlt keep cand cand_increasing) as Hs.
  destruct (filter keep cand) as [|p0 ps] eqn:Ep; [contradiction|].
  assert (Hidx : Forall (fun i => (i < length (p0 :: ps))%nat)
                   (linspace_int (length (p0 :: ps) - 1)
                      (min max_labels (length (p0 :: ps))))).
  { apply Forall_forall. intros i Hi.
    apply linspace_int_bound in Hi; cbn [length] in *; lia. }
  split.
  - apply StronglySorted_pick; trivial.
    apply linspace_int_increasing. cbn [length]. lia.
  - intros v Hv. apply in_map_iff in Hv as [i [<- Hi]].
    rewrite Forall_forall in Hidx. specialize (Hidx i Hi).
    assert (Hn : In (nth i (p0 :: ps) 0) (filter keep cand)).
    { rewrite Ep. now apply nth_In. }
    apply filter_In in Hn as [Hn1 Hn2].
    exists (nth i (p0 :: ps) 0). split; [exact Hn1|].
    split; [reflexivity|].
    unfold keep in Hn2. now apply kept_candidate_iff in Hn2.
Qed.

Lemma nice_sparse_log_ticks_increasing_example :
  StronglySorted Rlt (_nice_sparse_log_ticks (Fin 1) (Fin 2) 4).
Proof.
  apply (nice_sparse_log_ticks_increasing 1 2 4); [lra|lra|].
  assert (Hk : Int_part (log10 1) = 0%Z)
    by (apply Int_part_log10_unit; lra).
  assert (H0 : INR 0 = 0) by reflexivity.
  rewrite Hk, powerRZ_O.
  exists (1 + 0.2 * INR 0). split.
  - rewrite cand_cons. now left.
  - rewrite H0. unfold tol_default. split; lra.
Defined.

(** * Tick labels *)

Lemma string_app_assoc (a b c : string) :
  ((a ++ b) ++ c = a ++ (b ++ c))%string.
Proof. induction a as [|x a IH]; cbn; [reflexivity|now rewrite IH]. Qed.

Lemma rstrip_spec (c : ascii) (s : string) :
  (exists n, s = (rstrip c s ++ replicate n c)%string) /\
  last_char (rstrip c s) <> Some c.
Proof.
  induction s as [|a s' [[n Hn] Hl]]; cbn [rstrip].
  - split; [now exists 0%nat|discriminate].
  - destruct (rstrip c s') as [|b r] eqn:Er.
    + destruct (Ascii.eqb a c) eqn:Ea.
      * apply Ascii.eqb_eq in Ea. subst a. split; [|discriminate].
        exists (S n). cbn. now rewrite Hn at 1.
      * apply Ascii.eqb_neq in Ea. split; [|cbn; congruence].
        exists n. cbn. now rewrite Hn at 1.
    + split; [|exact Hl].
      exists n. cbn. now rewrite Hn at 1.
Qed.

(** X21: the label of an x tick is the four-decimal text with trailing
    zeros, and then trailing points, removed and nothing else changed; it
    never ends in a point, and it ends in a zero only when a point was
    removed (the zero of an integer part). *)
Theorem fmt_small_dt_strips_trailing (fmt_4f : R -> string) (x : R) :
  exists points zeros,
    fmt_4f x = (fmt_small_dt fmt_4f x ++ replicate points "."
                ++ replicate zeros "0")%string /\
    last_char (fmt_small_dt fmt_4f x) <> Some "."%char /\
    (points = 0%nat -> last_char (fmt_small_dt fmt_4f x) <> Some "0"%char).
Proof.
  unfold fmt_small_dt.
  destruct (rstrip_spec "0" (fmt_4f x)) as [[z Hz] Hlz].
  destruct (rstrip_spec "." (rstrip "0" (fmt_4f x))) as [[p Hp] Hlp].
  exists p, z. split; [|split].
  - rewrite <- string_app_assoc, <- Hp. exact Hz.
  - exact Hlp.
  - intros ->. cbn [replicate] in Hp.
    assert (E : forall s, (s ++ EmptyString)%string = s).
    { induction s as [|a s IH]; cbn; [reflexivity|now rewrite IH]. }
    rewrite E in Hp. rewrite <- Hp. exact Hlz.
Qed.

(** * Byte-identical inputs *)

Lemma setdefault_append_keys (d lbl k : string) (b : list (string * list string)) :
  In k (map fst (setdefault_append d lbl b)) <-> k = d \/ In k (map fst b).
Proof.
  induction b as [|[d' lab] b IH]; cbn [setdefault_append map fst In].
  - intuition congruence.
  - destruct (String.eqb d' d) eqn:E; cbn [map fst In].
    + apply String.eqb_eq in E. subst d'. intuition congruence.
    + rewrite IH. intuition congruence.
Qed.

Lemma setdefault_append_NoDup (d lbl : string) (b : list (string * list string)) :
  NoDup (map fst b) -> NoDup (map fst (setdefault_append d lbl b)).
Proof.
  induction b as [|[d' lab] b IH]; cbn [setdefault_append map fst]; intros H.
  - constructor; [intros []|constructor].
  - inversion H as [|? ? Hn Hb]; subst.
    destruct (String.eqb d' d) eqn:E; cbn [map fst].
    + constructor; assumption.
    + apply String.eqb_neq in E. constructor; [|auto].
      rewrite setdefault_append_keys. intros [->|Hi]; [now apply E|now apply Hn].
Qed.

Lemma setdefault_append_other (d lbl d' : string) (lab' : list string)
    (b : list (string * list string)) :
  d' <> d ->
  (In (d', lab') (setdefault_append d lbl b) <-> In (d', lab') b).
Proof.
  intros Hd.
  induction b as [|[k lab] b IH]; cbn [setdefault_append In].
  - split; [intros [E|[]]; congruence|intros []].
  - destruct (String.eqb k d) eqn:E; cbn [In].
    + apply String.eqb_eq in E. subst k.
      split; (intros [E|Hi]; [congruence|now right]).
    + rewrite IH. reflexivity.
Qed.

Lemma setdefault_append_same (d lbl : string) (lab' : list string)
    (b : list (string * list string)) :
  NoDup (map fst b) ->
  (In (d, lab') (setdefault_append d lbl b) <->
   (exists lab, In (d, lab) b /\ lab' = lab ++ [lbl]) \/
   (~ In d (map fst b) /\ lab' = [lbl])).
Proof.
  induction b as [|[k lab] b IH]; cbn [setdefault_append map fst In]; intros H.
  - split.
    + intros [E|[]]. right. split; [tauto|congruence].
    + intros [[lab [[] _]]|[_ ->]]. now left.
  - inversion H as [|? ? Hn Hb]; subst.
    assert (Hk : forall l, In (k, l) b -> False).
    { intros l Hl. apply Hn. change k with (fst (k, l)). now apply in_map. }
    destruct (String.eqb k d) eqn:E; cbn [In].
    + apply String.eqb_eq in E. subst k. split.
      * intros [E|Hi]; [|now destruct (Hk _ Hi)].
        left. exists lab. split; [now left|congruence].
      * intros [[l [[E|Hi] ->]]|[Hni _]].
        -- left. congruence.
        -- now destruct (Hk _ Hi).
        -- destruct Hni. now left.
    + apply String.eqb_neq in E. rewrite (IH Hb). split.
      * intros [E'|[[l [Hi ->]]|[Hni ->]]].
        -- congruence.
        -- left. exists l. split; [now right|reflexivity].
        -- right. split; [|reflexivity]. intros [E'|Hi]; [now apply E|now apply Hni].
      * intros [[l [[E'|Hi] ->]]|[Hni ->]].
        -- congruence.
        -- right. left. now exists l.
        -- right. right. split; [|reflexivity]. intros Hi. apply Hni. now right.
Qed.

Lemma labels_with_snoc (d d' lbl : string) (pre : list (string * string)) :
  labels_with d' (pre ++ [(lbl, d)])
  = labels_with d' pre ++ (if String.eqb d d' then [lbl] else []).
Proof.
  unfold labels_with. rewrite filter_app, map_app. cbn [filter snd].
  destruct (String.eqb d d'); reflexivity.
Qed.

Lemma buckets_inv_step (pre : list (string * string))
    (b : list (string * list string)) (lbl d : string) :
  buckets_inv pre b ->
  buckets_inv (pre ++ [(lbl, d)]) (setdefault_append d lbl b).
Proof.
  intros [Hnd Hb]. split; [now apply setdefault_append_NoDup|].
  intros d' lab'. rewrite labels_with_snoc.
  destruct (String.eqb d d') eqn:E.
  - apply String.eqb_eq in E. subst d'.
    rewrite (setdefault_append_same d lbl lab' b Hnd). split.
    + intros [[lab [Hi ->]]|[Hni ->]].
      * apply Hb in Hi. destruct Hi as [-> _].
        split; [reflexivity|]. now destruct (labels_with d pre).
      * destruct (labels_with d pre) as [|x l] eqn:El.
        -- split; [reflexivity|discriminate].
        -- destruct Hni. change d with (fst (d, x :: l)). apply in_map.
           apply Hb. split; [now rewrite El|discriminate].
    + intros [-> _].
      destruct (labels_with d pre) as [|x l] eqn:El.
      * right. split; [|reflexivity].
        intros Hi. apply in_map_iff in Hi. destruct Hi as [[k lab] [Ek Hi]].
        cbn [fst] in Ek. subst k. apply Hb in Hi. destruct Hi as [E1 E2].
        rewrite El in E1. contradiction.
      * left. exists (x :: l). split; [|reflexivity].
        apply Hb. split; [now rewrite El|discriminate].
  - apply String.eqb_neq in E. rewrite app_nil_r.
    rewrite setdefault_append_other by congruence. apply Hb.
Qed.

Lemma buckets_inv_fold (l pre : list (string * string))
    (b : list (string * list string)) :
  buckets_inv pre b ->
  buckets_inv (pre ++ l)
    (fold_left (fun b e => setdefault_append (snd e) (fst e) b) l b).
Proof.
  revert pre b. induction l as [|[lbl d] l IH]; intros pre b H; cbn [fold_left].
  - now rewrite app_nil_r.
  - replace (pre ++ (lbl, d) :: l) with ((pre ++ [(lbl, d)]) ++ l)
      by (now rewrite <- app_assoc).
    apply IH. cbn [fst snd]. now apply buckets_inv_step.
Qed.

Lemma buckets_of_inv (digests : list (string * string)) :
  buckets_inv digests (buckets_of digests).
Proof.
  apply (buckets_inv_fold digests [] []). split; [constructor|].
  intros d lab. cbn. split; [intros []|intros [-> H]; now apply H].
Qed.

Lemma dups_in (digests : list (string * string)) (lab : list string) :
  In lab (dups digests) <->
  exists d, lab = labels_with d digests /\ (2 <= length lab)%nat.
Proof.
  destruct (buckets_of_inv digests) as [_ Hb].
  unfold dups. rewrite filter_In, in_map_iff, Nat.ltb_lt. split.
  - intros [[[d l] [E Hi]] Hl]. cbn [snd] in E. subst l.
    exists d. split; [now apply Hb in Hi|lia].
  - intros [d [E Hl]]. split; [|lia].
    exists (d, lab). split; [reflexivity|].
    apply Hb. split; [exact E|]. intros ->. cbn in Hl. lia.
Qed.

Lemma labels_with_count (d : string) (digests : list (string * string)) :
  length (labels_with d digests) = count_occ string_dec (map snd digests) d.
Proof.
  unfold labels_with.
  induction digests as [|[lbl k] l IH]; cbn [filter map snd count_occ]; [reflexivity|].
  destruct (string_dec k d) as [->|Hn].
  - rewrite String.eqb_refl. cbn [map length]. now rewrite IH.
  - apply String.eqb_neq in Hn. now rewrite Hn.
Qed.

(** X22: the groups reported as byte-identical are exactly the lists of the
    labels that share one digest, in input order, for the digests that two or
    more inputs have. *)
Theorem dups_are_shared_digests (digests : list (string * string))
    (lab : list string) :
  In lab (dups digests) <->
  exists d, lab = labels_with d digests /\ (2 <= length lab)%nat.
Proof. apply dups_in. Qed.

(** X23: no group is reported, hence no byte-identical warning is printed,
    exactly when the digests of the inputs are pairwise distinct. *)
Theorem dups_empty_iff_distinct_digests (digests : list (string * string)) :
  dups digests = [] <-> NoDup (map snd digests).
Proof.
  rewrite (NoDup_count_occ string_dec). split.
  - intros H d. rewrite <- labels_with_count.
    destruct (le_lt_dec (length (labels_with d digests)) 1) as [Hl|Hl]; [exact Hl|].
    assert (Hi : In (labels_with d digests) (dups digests)).
    { apply dups_in. exists d. split; [reflexivity|lia]. }
    rewrite H in Hi. destruct Hi.
  - intros H. destruct (dups digests) as [|lab r] eqn:E; [reflexivity|].
    assert (Hi : In lab (dups digests)) by (rewrite E; now left).
    apply dups_in in Hi. destruct Hi as [d [-> Hl]].
    rewrite labels_with_count in Hl. specialize (H d). lia.
Qed.
